(** * messageformat: the runtime of compiled messages

    A shallow embedding of [packages/messageformat/src/runtime.js] (class
    [Runtime]): the two variants of the [number] primitive, [plural],
    [select], the constructor and the self-rendering [toString].

    JavaScript values are embedded as the inductive type [jsvalue]; numbers
    are IEEE 754 binary64 values (Rocq's primitive floats), strings are
    sequences of 8-bit characters, and an object is the ordered list of its
    own properties together with the properties it inherits.  A [throw] is
    the [Throw] constructor of [result].  Symbols, BigInts, accessor
    properties (the [__proto__] accessor among them) and objects whose
    conversion to a primitive raises are not embedded. *)

From Stdlib Require Import String Ascii List ZArith Bool Lia PeanoNat.
From Stdlib Require Import Sorting.Permutation.
From Stdlib Require Import Numbers.DecimalString.
From Stdlib Require Import Floats.PrimFloat Floats.SpecFloat Floats.FloatOps.
From Stdlib Require Import Floats.FloatAxioms.
From Stdlib Require Numbers.Cyclic.Int63.Uint63.
Import ListNotations.

Local Open Scope list_scope.
Local Open Scope string_scope.

(** ** Values *)

#[warnings="-register-all"]
Inductive jsvalue : Type :=
| VUndefined
| VNull
| VBool (b : bool)
| VNum (x : float)
| VStr (s : string)
| VFun (src : string)
    (* a function; [src] is the text [Function.prototype.toString] gives *)
| VObj (own inherited : list (string * jsvalue)).
    (* an object: own properties in insertion order, and the properties
       reached through its prototype chain (none of them enumerable) *)

Definition props : Type := list (string * jsvalue).

Record object : Type := Object_ { own : props; inherited : props }.

Definition object_value (o : object) : jsvalue := VObj (own o) (inherited o).

(** ** Exceptions *)

Inductive exception : Type :=
| Error (message : string)      (* [new Error(message)] *)
| TypeError.                    (* raised by the engine itself *)

Inductive result (A : Type) : Type :=
| Return (a : A)
| Throw (e : exception).

Arguments Return {A} a.
Arguments Throw {A} e.

Definition bind {A B : Type} (r : result A) (k : A -> result B) : result B :=
  match r with
  | Return a => k a
  | Throw e => Throw e
  end.

Notation "x <- r ;; k" := (bind r (fun x => k))
  (at level 61, r at next level, right associativity).

Definition throws {A : Type} (r : result A) : Prop := exists e, r = Throw e.

(** ** The engine

    Built-ins of the JavaScript engine that the runtime calls and whose text
    is not part of this repository.  The development is parametric in them. *)

Inductive hint : Type := HintDefault | HintNumber | HintString.

Inductive runtime_function : Type :=
| fn_defaultNumber | fn_strictNumber | fn_plural | fn_select.

Class Host : Type := {
  (* ToNumber applied to a string (StringToNumber) *)
  StringToNumber : string -> float;
  (* Number::toString on finite non-zero numbers that are not safe integers *)
  NumberToString_other : float -> string;
  (* ToPrimitive on an object, followed by ToNumber / ToString *)
  ObjectToNumber : props -> props -> float;
  ObjectToString : hint -> props -> props -> string;
  (* JSON.stringify, which yields a string or undefined *)
  JSON_stringify : jsvalue -> jsvalue;
  (* Function.prototype.toString on the functions of class Runtime *)
  Function_toString : runtime_function -> string;
  (* what an object literal inherits: the members of Object.prototype *)
  Object_prototype : props;
  (* what an instance of class Runtime inherits: the members of
     Runtime.prototype and of Object.prototype *)
  Runtime_prototype : props
}.

(** ** Numbers *)

Definition two53 : Z := 9007199254740992.

(** The integer a finite float denotes, when it is a safe integer
    (an integer of magnitude below 2^53). *)
Definition safe_integer (x : float) : option Z :=
  match Prim2SF x with
  | S754_zero _ => Some 0%Z
  | S754_finite s m e =>
      let mag :=
        if (0 <=? e)%Z then Some (Z.pos m * 2 ^ e)%Z
        else if (Z.pos m mod 2 ^ (- e) =? 0)%Z then Some (Z.pos m / 2 ^ (- e))%Z
        else None in
      match mag with
      | Some z => if (z <? two53)%Z then Some (if s then (- z)%Z else z) else None
      | None => None
      end
  | _ => None
  end.

Definition decimal (z : Z) : string := NilZero.string_of_int (Z.to_int z).

Section Conversions.
Context {host : Host}.

(** Number::toString (radix 10). *)
Definition NumberToString (x : float) : string :=
  if is_nan x then "NaN"
  else if is_zero x then "0"
  else if is_infinity x then (if (x <? 0)%float then "-Infinity" else "Infinity")
  else match safe_integer x with
       | Some z => decimal z
       | None => NumberToString_other x
       end.

(** ToBoolean *)
Definition ToBoolean (v : jsvalue) : bool :=
  match v with
  | VUndefined | VNull => false
  | VBool b => b
  | VNum x => negb (is_zero x || is_nan x)
  | VStr s => negb (s =? "")
  | VFun _ | VObj _ _ => true
  end.

(** ToNumber *)
Definition ToNumber (v : jsvalue) : float :=
  match v with
  | VUndefined => nan
  | VNull => zero
  | VBool b => if b then one else zero
  | VNum x => x
  | VStr s => StringToNumber s
  | VFun src => StringToNumber src
  | VObj o i => ObjectToNumber o i
  end.

(** ToString of ToPrimitive with the given hint. *)
Definition ToStringHint (h : hint) (v : jsvalue) : string :=
  match v with
  | VUndefined => "undefined"
  | VNull => "null"
  | VBool b => if b then "true" else "false"
  | VNum x => NumberToString x
  | VStr s => s
  | VFun src => src
  | VObj o i => ObjectToString h o i
  end.

(** ToPropertyKey: the key under which [o[v]] looks up. *)
Definition ToPropertyKey (v : jsvalue) : string := ToStringHint HintString v.

(** The global function [isNaN]. *)
Definition isNaN (v : jsvalue) : bool := is_nan (ToNumber v).

(** [a - b] *)
Definition js_sub (a b : jsvalue) : jsvalue :=
  VNum (ToNumber a - ToNumber b)%float.

(** [s + v] for a string [s] *)
Definition js_concat (s : string) (v : jsvalue) : string :=
  s ++ ToStringHint HintDefault v.

(** [a || b] *)
Definition js_or (a b : jsvalue) : jsvalue := if ToBoolean a then a else b.

End Conversions.

(** ** Objects *)

Fixpoint assoc (k : string) (l : props) : option jsvalue :=
  match l with
  | [] => None
  | (k', v) :: r => if k' =? k then Some v else assoc k r
  end.

Definition mem (k : string) (l : props) : bool :=
  match assoc k l with Some _ => true | None => false end.

(** [{}.hasOwnProperty.call(o, k)] *)
Definition hasOwnProperty (o : object) (k : string) : bool := mem k (own o).

(** [k in o] *)
Definition has_property (o : object) (k : string) : bool :=
  mem k (own o) || mem k (inherited o).

(** [o[k]] *)
Definition get (o : object) (k : string) : jsvalue :=
  match assoc k (own o) with
  | Some v => v
  | None => match assoc k (inherited o) with
            | Some v => v
            | None => VUndefined
            end
  end.

(** ** Runtime.defaultNumber and Runtime.strictNumber *)

Section Number.
Context {host : Host}.

Definition defaultNumber (value name offset : jsvalue) : result jsvalue :=
  if negb (ToBoolean offset) then Return value
  else if isNaN value then
    Throw (Error
      (js_concat
         (js_concat
            (js_concat "Can't apply offset:" offset ++ " to argument `")
            name ++ "` with non-numerical value ")
         (JSON_stringify value) ++ "."))
  else Return (js_sub value offset).

Definition strictNumber (value name offset : jsvalue) : result jsvalue :=
  if isNaN value then
    Throw (Error
      (js_concat
         (js_concat "Argument `" name ++ "` has non-numerical value ")
         (JSON_stringify value) ++ "."))
  else Return (js_sub value (js_or offset (VNum zero))).

End Number.

(** ** Runtime#plural and Runtime#select *)

Section Dispatch.
Context {host : Host}.

Definition plural (value offset : jsvalue)
    (lcfunc : jsvalue -> jsvalue -> jsvalue) (data : object)
    (isOrdinal : jsvalue) : jsvalue :=
  if hasOwnProperty data (ToPropertyKey value)
  then get data (ToPropertyKey value)
  else
    let value := if ToBoolean offset then js_sub value offset else value in
    let key := lcfunc value isOrdinal in
    if has_property data (ToPropertyKey key)
    then get data (ToPropertyKey key)
    else get data "other".

Definition select (value : jsvalue) (data : object) : jsvalue :=
  if hasOwnProperty data (ToPropertyKey value)
  then get data (ToPropertyKey value)
  else get data "other".

End Dispatch.

(** ** The class Runtime and its constructor *)

(** A function of the runtime: what calling it computes, and its text. *)
Record jsfunction (T : Type) : Type := Function_ { call : T; source : string }.

Arguments Function_ {T} call source.
Arguments call {T} j.
Arguments source {T} j.

Definition number_type : Type := jsvalue -> jsvalue -> jsvalue -> result jsvalue.
Definition plural_type : Type :=
  jsvalue -> jsvalue -> (jsvalue -> jsvalue -> jsvalue) -> object -> jsvalue ->
  jsvalue.
Definition select_type : Type := jsvalue -> object -> jsvalue.

(** The fields of an instance: [this.number], [this.compiler],
    [this.pluralFuncs], [this.plural] and [this.select]. *)
Record Runtime : Type := Runtime_ {
  rt_number : jsfunction number_type;
  rt_compiler : object;
  rt_pluralFuncs : object;
  rt_plural : jsfunction plural_type;
  rt_select : jsfunction select_type
}.

(** The options object the constructor destructures. *)
Record Options : Type := Options_ { strictNumberSign : jsvalue }.

Section Class.
Context {host : Host}.

Definition Runtime_defaultNumber : jsfunction number_type :=
  Function_ defaultNumber (Function_toString fn_defaultNumber).

Definition Runtime_strictNumber : jsfunction number_type :=
  Function_ strictNumber (Function_toString fn_strictNumber).

Definition constructor (options : Options) (compiler pluralFuncs : object)
    : Runtime :=
  {| rt_number := if ToBoolean (strictNumberSign options)
                  then Runtime_strictNumber
                  else Runtime_defaultNumber;
     rt_compiler := compiler;
     rt_pluralFuncs := pluralFuncs;
     rt_plural := Function_ plural (Function_toString fn_plural);
     rt_select := Function_ select (Function_toString fn_select) |}.

(** The instance as an object: its fields in the order they are created
    (class fields, then the assignments of the constructor). *)
Definition instance (this : Runtime) : object :=
  {| own := [ ("plural", VFun (source (rt_plural this)));
              ("select", VFun (source (rt_select this)));
              ("number", VFun (source (rt_number this)));
              ("compiler", object_value (rt_compiler this));
              ("pluralFuncs", object_value (rt_pluralFuncs this)) ];
     inherited := Runtime_prototype |}.

End Class.

(** ** Property enumeration and assignment *)

(** An array index: the canonical decimal text of an integer below 2^32 - 1. *)
Definition array_index (k : string) : option N :=
  match NilEmpty.uint_of_string k with
  | Some d =>
      let n := N.of_uint d in
      if (n <? 4294967295)%N && (decimal (Z.of_N n) =? k) then Some n else None
  | None => None
  end.

Definition is_array_index (k : string) : bool :=
  match array_index k with Some _ => true | None => false end.

Definition index_of (k : string) : N :=
  match array_index k with Some n => n | None => 0%N end.

Fixpoint mem_string (k : string) (l : list string) : bool :=
  match l with
  | [] => false
  | k' :: r => (k' =? k) || mem_string k r
  end.

(** The keys of a property list, each once, at its first position. *)
Fixpoint distinct (seen l : list string) : list string :=
  match l with
  | [] => []
  | k :: r => if mem_string k seen then distinct seen r
              else k :: distinct (k :: seen) r
  end.

Fixpoint insert_index (k : string) (l : list string) : list string :=
  match l with
  | [] => [k]
  | k' :: r => if (index_of k <=? index_of k')%N then k :: l
               else k' :: insert_index k r
  end.

Definition sort_indices (l : list string) : list string :=
  fold_right insert_index [] l.

(** The own enumerable keys in the order of [Object.keys] and [for..in]:
    array indices ascending, then the other keys in insertion order. *)
Definition OwnPropertyKeys (l : props) : list string :=
  let ks := distinct [] (map fst l) in
  (sort_indices (filter is_array_index ks)
     ++ filter (fun k => negb (is_array_index k)) ks)%list.

(** [Object.keys(v)] *)
Definition Object_keys (v : jsvalue) : result (list string) :=
  match v with
  | VUndefined | VNull => Throw TypeError
  | VObj o _ => Return (OwnPropertyKeys o)
  | VStr s => Return (map (fun i => decimal (Z.of_nat i)) (seq 0 (String.length s)))
  | VBool _ | VNum _ | VFun _ => Return []
  end.

(** [obj[k] = v] on the own properties of an ordinary object. *)
Fixpoint put (k : string) (v : jsvalue) (l : props) : props :=
  match l with
  | [] => [(k, v)]
  | (k', v') :: r => if k' =? k then (k, v) :: r else (k', v') :: put k v r
  end.

Fixpoint mapM {A B : Type} (f : A -> result B) (l : list A) : result (list B) :=
  match l with
  | [] => Return []
  | a :: r => b <- f a ;; bs <- mapM f r ;; Return (b :: bs)
  end.

(** ** Text operations of [_stringify] *)

Definition nl : string := String (ascii_of_nat 10) "".

Definition is_line_terminator (c : ascii) : bool :=
  let n := nat_of_ascii c in (n =? 10)%nat || (n =? 13)%nat.

Definition is_space_or_tab (c : ascii) : bool :=
  let n := nat_of_ascii c in (n =? 32)%nat || (n =? 9)%nat.

(** The class [\s] on 8-bit characters. *)
Definition is_whitespace (c : ascii) : bool :=
  let n := nat_of_ascii c in
  ((9 <=? n)%nat && (n <=? 13)%nat) || (n =? 32)%nat || (n =? 160)%nat.

(** The class [\w]. *)
Definition is_word (c : ascii) : bool :=
  let n := nat_of_ascii c in
  ((48 <=? n)%nat && (n <=? 57)%nat) || ((65 <=? n)%nat && (n <=? 90)%nat)
  || ((97 <=? n)%nat && (n <=? 122)%nat) || (n =? 95)%nat.

Fixpoint strip_prefix (p s : string) : option string :=
  match p, s with
  | "", _ => Some s
  | String a p', String b s' => if Ascii.eqb a b then strip_prefix p' s' else None
  | String _ _, "" => None
  end.

Fixpoint drop_word (s : string) : string :=
  match s with
  | "" => ""
  | String c r => if is_word c then drop_word r else s
  end.

(** [s.replace(/^(function )\w*/, '$1')] *)
Definition strip_function_name (s : string) : string :=
  match strip_prefix "function " s with
  | Some r => "function " ++ drop_word r
  | None => s
  end.

(** The text after the last line terminator. *)
Fixpoint last_line_from (cur s : string) : string :=
  match s with
  | "" => cur
  | String c r => if is_line_terminator c then last_line_from r r
                  else last_line_from cur r
  end.

Definition last_line (s : string) : string := last_line_from s s.

Fixpoint scan_indent (run l : string) : option string :=
  match l with
  | "" => None
  | String c r =>
      if is_space_or_tab c then scan_indent (run ++ String c "") r
      else if is_whitespace c then scan_indent "" r
      else Some run
  end.

(** The regular expression of [funcIndent] executed on [s]: a captured run
    of spaces and tabs, one non-blank character, then any characters up to
    the end of the input.  The result is the captured group of the leftmost
    match, which lies in the last line since [.] matches no line
    terminator, or [None] when nothing matches. *)
Definition exec_indent (s : string) : option string :=
  scan_indent "" (last_line s).

(** The lines of a text, each with the terminator that ends it; every piece
    starts where [^] matches under the flag [m]. *)
Fixpoint lines_keep (s : string) : list string :=
  match s with
  | "" => [""]
  | String c r =>
      if is_line_terminator c then String c "" :: lines_keep r
      else match lines_keep r with
           | l :: ls => String c l :: ls
           | [] => [String c ""]
           end
  end.

(** [s.replace(new RegExp('^' + indent, 'mg'), '')] for an [indent] made of
    spaces and tabs, which is what [funcIndent[1]] holds: such a text is a
    pattern that matches itself and nothing else.  An [indent] with
    characters that a regular expression reads as operators is outside of
    this definition. *)
Definition unindent (indent s : string) : string :=
  String.concat ""
    (map (fun l => match strip_prefix indent l with Some r => r | None => l end)
         (lines_keep s)).

(** [s.replace(/^/gm, indent)] for an [indent] made of spaces and tabs, as
    the loop of [_stringify] builds it: such a text holds no replacement
    pattern (a dollar sign followed by a character), so it is inserted as it
    is. *)
Definition indent_lines (indent s : string) : string :=
  String.concat "" (map (fun l => indent ++ l) (lines_keep s)).

(** [let indent = '  '; while (--level) indent += '  ';] for [level >= 1] *)
Fixpoint while_indent (level : nat) (indent : string) : string :=
  match level with
  | S (S _ as level') => while_indent level' (indent ++ "  ")
  | _ => indent
  end.

(** ** Runtime#toString *)

Section Rendering.
Context {host : Host}.

(** [funcname] and [propname] of [./utils], whose text is not at hand. *)
Variables funcname propname : string -> string.

(** What the first branch of [_stringify] makes of the text [o.toString()]. *)
Definition function_text (text : string) : string :=
  let funcStr := strip_function_name text in
  match exec_indent funcStr with
  | Some indent => unindent indent funcStr
  | None => funcStr
  end.

(** The string pushed on [s] for the key [i] whose value renders as [v]. *)
Definition entry (level : nat) (i v : string) : string :=
  if (level =? 0)%nat then "var " ++ i ++ " = " ++ v ++ ";" ++ nl
  else propname i ++ ": " ++ v.

(** The end of [_stringify], from [if (level === 0)] on. *)
Definition assemble (level : nat) (s : list string) : string :=
  if (level =? 0)%nat then String.concat "" s
  else match s with
       | [] => "{}"
       | _ => let indent := while_indent level "  " in
              let oc := indent_lines indent (String.concat ("," ++ nl) s) in
              "{" ++ nl ++ oc ++ nl ++ "}"
       end.

Fixpoint lookup_rendered (i : string) (l : list (string * result string))
    : result string :=
  match l with
  | [] => Throw TypeError
  | (k, r) :: l' => if k =? i then r else lookup_rendered i l'
  end.

(** [_stringify(o, level)].  In the branch of objects, [rendered] holds
    [_stringify(o[i], level + 1)] for each own property, and the loop over
    the keys reads it in the order of [for..in]. *)
Fixpoint _stringify (o : jsvalue) (level : nat) {struct o} : result string :=
  match o with
  | VUndefined => Throw TypeError
  | VBool _ | VNum _ | VStr _ | VFun _ =>
      Return (function_text (ToStringHint HintString o))
  | VNull => Return (assemble level [])
  | VObj own _ =>
      let rendered :=
        (fix each (l : props) : list (string * result string) :=
           match l with
           | [] => []
           | (i, x) :: r => (i, _stringify x (S level)) :: each r
           end) own in
      s <- mapM (fun i => v <- lookup_rendered i rendered ;;
                          Return (entry level i v))
                (OwnPropertyKeys own) ;;
      Return (assemble level s)
  end.

(** The object [obj] that [toString] fills before rendering it. *)
Definition rendered_object (this : Runtime) : result props :=
  let obj := [] in
  lcKeys <- Object_keys (get (rt_compiler this) "locales") ;;
  let obj :=
    fold_left (fun obj lc => put (funcname lc) (get (rt_pluralFuncs this) lc) obj)
              lcKeys obj in
  rtKeys <- Object_keys (get (rt_compiler this) "runtime") ;;
  let obj :=
    fold_left (fun obj fn => put fn (get (instance this) fn) obj) rtKeys obj in
  fmtKeys <- Object_keys (get (rt_compiler this) "formatters") ;;
  Return (if (0 <? List.length fmtKeys)%nat
          then put "fmt" (get (rt_compiler this) "formatters") obj
          else obj).

Definition toString (this : Runtime) : result string :=
  obj <- rendered_object this ;;
  _stringify (VObj obj []) 0.

End Rendering.

(** A value with no [undefined] in it, at any depth of own properties:
    what [_stringify] renders without raising. *)
Fixpoint defined (v : jsvalue) : bool :=
  match v with
  | VUndefined => false
  | VObj own _ =>
      (fix each (l : props) : bool :=
         match l with
         | [] => true
         | (_, x) :: r => defined x && each r
         end) own
  | _ => true
  end.

(** [o[i]] for the object of own properties [l] and an own key [i]. *)
Definition own_value (l : props) (i : string) : jsvalue :=
  match assoc i l with Some x => x | None => VUndefined end.

(** ** The rendering in the words of the specification *)






Section Bundle.
Context {host : Host}.
Variables funcname propname : string -> string.

(** The text of a function as the rendering holds it: its own text without
    its name and without the indentation of its last line. *)
Definition bundled (v : jsvalue) : string :=
  function_text (ToStringHint HintString v).




End Bundle.

(** ** The instance in the store

    An instance of the class is an object, and code that holds it can
    assign its fields, at construction and afterwards.  A [cell] is the
    instance as the store holds it: the fields it has so far, together with
    the record of the assignments made to it, one name for each assignment
    in the order they were made.  The constructor and the members act on
    the cell. *)

Inductive field : Type :=
| FNumber (f : jsfunction number_type)
| FPlural (f : jsfunction plural_type)
| FSelect (f : jsfunction select_type)
| FObject (o : object).

Record cell : Type := Cell_ {
  fields : list (string * field);
  assigned : list string
}.

Definition empty_cell : cell := {| fields := []; assigned := [] |}.

Definition action (A : Type) : Type := cell -> A * cell.

Definition ret {A : Type} (a : A) : action A := fun c => (a, c).

Definition seq {A B : Type} (m : action A) (k : A -> action B) : action B :=
  fun c => let (a, c') := m c in k a c'.

Notation "x <~ m ;; k" := (seq m (fun x => k))
  (at level 61, m at next level, right associativity).
Notation "m >>> k" := (seq m (fun _ => k))
  (at level 61, right associativity).

Fixpoint lookup_field (k : string) (l : list (string * field)) : option field :=
  match l with
  | [] => None
  | (k', v) :: r => if k' =? k then Some v else lookup_field k r
  end.

Fixpoint set_field (k : string) (v : field) (l : list (string * field))
    : list (string * field) :=
  match l with
  | [] => [(k, v)]
  | (k', v') :: r => if k' =? k then (k, v) :: r else (k', v') :: set_field k v r
  end.

(** [this.k] *)
Definition read (k : string) : action (option field) :=
  fun c => (lookup_field k (fields c), c).

(** [this.k = v] *)
Definition assign_field (k : string) (v : field) : action unit :=
  fun c => (tt, {| fields := set_field k v (fields c);
                   assigned := (assigned c ++ [k])%list |}).

Section Instance.
Context {host : Host}.
Variables funcname propname : string -> string.

(** [new Runtime(options, compiler, pluralFuncs)] on the fresh object: the
    class fields [plural] and [select] are defined, then the body of the
    constructor runs. *)
Definition new_Runtime (options : Options) (compiler pluralFuncs : object)
    : action unit :=
  assign_field "plural" (FPlural (Function_ plural (Function_toString fn_plural))) >>>
  assign_field "select" (FSelect (Function_ select (Function_toString fn_select))) >>>
  assign_field "number" (FNumber (if ToBoolean (strictNumberSign options)
                            then Runtime_strictNumber
                            else Runtime_defaultNumber)) >>>
  assign_field "compiler" (FObject compiler) >>>
  assign_field "pluralFuncs" (FObject pluralFuncs).

(** The fields that the members read, when the cell has them all. *)
Definition this_runtime (c : cell) : option Runtime :=
  match lookup_field "number" (fields c), lookup_field "compiler" (fields c),
        lookup_field "pluralFuncs" (fields c), lookup_field "plural" (fields c),
        lookup_field "select" (fields c) with
  | Some (FNumber n), Some (FObject co), Some (FObject pf),
    Some (FPlural p), Some (FSelect s) =>
      Some {| rt_number := n; rt_compiler := co; rt_pluralFuncs := pf;
              rt_plural := p; rt_select := s |}
  | _, _, _, _, _ => None
  end.

(** What is done with an instance once it is built: compiled code calls
    [number], [plural] and [select] on it, and [toString] renders it. *)
Inductive operation : Type :=
| Op_number (value name offset : jsvalue)
| Op_plural (value offset : jsvalue) (lcfunc : jsvalue -> jsvalue -> jsvalue)
            (data : object) (isOrdinal : jsvalue)
| Op_select (value : jsvalue) (data : object)
| Op_toString.

(** One operation on the cell.  The bodies of [defaultNumber],
    [strictNumber], [plural] and [select] do not mention [this], and
    [toString] only reads it: none holds an assignment to a field.  Calling
    a field that holds no function is a TypeError; so is, here, [toString]
    on a cell that lacks one of the five fields, which is no instance that
    the constructor has built. *)
Definition invoke (op : operation) : action (result jsvalue) :=
  match op with
  | Op_number value name offset =>
      f <~ read "number" ;;
      ret (match f with
           | Some (FNumber f) => call f value name offset
           | _ => Throw TypeError
           end)
  | Op_plural value offset lcfunc data isOrdinal =>
      f <~ read "plural" ;;
      ret (match f with
           | Some (FPlural f) =>
               Return (call f value offset lcfunc data isOrdinal)
           | _ => Throw TypeError
           end)
  | Op_select value data =>
      f <~ read "select" ;;
      ret (match f with
           | Some (FSelect f) => Return (call f value data)
           | _ => Throw TypeError
           end)
  | Op_toString =>
      fun c =>
        (match this_runtime c with
         | Some this => text <- toString funcname propname this ;;
                        Return (VStr text)
         | None => Throw TypeError
         end, c)
  end.

(** Any number of operations, one after the other. *)
Fixpoint run (ops : list operation) : action (list (result jsvalue)) :=
  match ops with
  | [] => ret []
  | op :: ops' => out <~ invoke op ;; outs <~ run ops' ;; ret (out :: outs)
  end.

End Instance.

(** ** A compiled message *)

Section Compiled.
Context {host : Host}.

Fixpoint has_dot (s : string) : bool :=
  match s with
  | "" => false
  | String c r => Ascii.eqb c "."%char || has_dot r
  end.

(** Modelled from the spec: the plural-rule function of the locale [en],
    which the Plural-Rule Registry (an external collaborator, section 4.4)
    supplies: a pure function from a numeric value and the ordinal flag to a
    category key.  For English the cardinal categories are [one], for the
    number 1 written without fraction digits, and [other]; the ordinal ones
    are [one], [two], [few] and [other], by the last digits of an integer. *)
Definition en (n ord : jsvalue) : jsvalue :=
  if ToBoolean ord then
    match safe_integer (ToNumber n) with
    | Some z =>
        let n10 := (Z.abs z mod 10)%Z in
        let n100 := (Z.abs z mod 100)%Z in
        if (n10 =? 1)%Z && negb (n100 =? 11)%Z then VStr "one"
        else if (n10 =? 2)%Z && negb (n100 =? 12)%Z then VStr "two"
        else if (n10 =? 3)%Z && negb (n100 =? 13)%Z then VStr "few"
        else VStr "other"
    | None => VStr "other"
    end
  else if (ToNumber n =? one)%float && negb (has_dot (ToStringHint HintString n))
  then VStr "one"
  else VStr "other".

(** Modelled from the spec: the function compiled for [en] from the message
    [{count, plural, offset:1 =0{no one} one{you and one other}
    other{you and # others}}] of section 8; the compiler is not among the
    sources.  By section 4.2 the selector block is a call of the runtime's
    [plural] with the raw argument, the offset, the plural function of the
    locale and the map from case key to the output of the case, and [#] is
    the runtime's [number] applied to the argument, its name and the offset
    (section 4.3).  The output of each case is computed when the map is
    built, [data] being documented as an object of strings. *)
Definition you_and_others (this : Runtime) (d_count : jsvalue)
    : result jsvalue :=
  n <- call (rt_number this) d_count (VStr "count") (VNum one) ;;
  Return
    (call (rt_plural this) d_count (VNum one) en
       {| own := [ ("0", VStr "no one");
                   ("one", VStr "you and one other");
                   ("other", VStr (js_concat "you and " n ++ " others")) ];
          inherited := Object_prototype |}
       VUndefined).

End Compiled.

(** ** The dispatch in the words of the specification *)

Section Specified.
Context {host : Host}.

(** Section 4.3: an exact match on [cases[String(value)]] comes first;
    otherwise [adjusted = value - (offset||0)],
    [category = pluralRuleFn(adjusted, isOrdinal)], and the result is
    [cases[category]] if present, else [cases.other]. *)
Definition plural_as_specified (value offset : jsvalue)
    (pluralRuleFn : jsvalue -> jsvalue -> jsvalue) (cases : object)
    (isOrdinal : jsvalue) : jsvalue :=
  if hasOwnProperty cases (ToPropertyKey value)
  then get cases (ToPropertyKey value)
  else
    let adjusted := js_sub value (js_or offset (VNum zero)) in
    let category := pluralRuleFn adjusted isOrdinal in
    if has_property cases (ToPropertyKey category)
    then get cases (ToPropertyKey category)
    else get cases "other".

(** The case chosen for a category key. *)
Definition case_of (data : object) (key : jsvalue) : jsvalue :=
  if has_property data (ToPropertyKey key)
  then get data (ToPropertyKey key)
  else get data "other".

(** Section 4.3: [select] is an exact, case-sensitive match of strings on
    [cases[value]], else [cases.other], with no coercion: a value that is
    no string is converted to none, and so matches no key. *)
Definition select_as_specified (value : jsvalue) (cases : object) : jsvalue :=
  match value with
  | VStr s => if hasOwnProperty cases s then get cases s else get cases "other"
  | _ => get cases "other"
  end.

End Specified.

(** A plural function written with strict equality:
    [function (n) { return n === 1 ? 'one' : 'other' }]. *)
Definition strict_one (n ord : jsvalue) : jsvalue :=
  match n with
  | VNum x => if (x =? one)%float then VStr "one" else VStr "other"
  | _ => VStr "other"
  end.

(** ** A host to evaluate with

    Its [StringToNumber] reads the empty string and unsigned decimal
    integers of at most fifteen digits; every other text is not a number. *)

Definition sample_StringToNumber (s : string) : float :=
  if (15 <? String.length s)%nat then nan
  else match NilEmpty.uint_of_string s with
       | Some d => of_uint63 (Uint63.of_Z (Z.of_N (N.of_uint d)))
       | None => nan
       end.

Definition quote : string := String (ascii_of_nat 34) "".

Definition sample_JSON_stringify (v : jsvalue) : jsvalue :=
  match v with
  | VUndefined | VFun _ => VUndefined
  | VNull => VStr "null"
  | VBool b => VStr (if b then "true" else "false")
  | VNum x => if is_nan x || is_infinity x then VStr "null"
              else match safe_integer x with
                   | Some z => VStr (if is_zero x then "0" else decimal z)
                   | None => VStr "0.5"
                   end
  | VStr s => VStr (quote ++ s ++ quote)
  | VObj _ _ => VStr "{}"
  end.

Definition sample_Function_toString (f : runtime_function) : string :=
  match f with
  | fn_defaultNumber => "function(value, name, offset) { }"
  | fn_strictNumber => "function(value, name, offset) { }"
  | fn_plural => "function(value, offset, lcfunc, data, isOrdinal) { }"
  | fn_select => "function(value, data) { }"
  end.

Definition sample_host : Host :=
  {| StringToNumber := sample_StringToNumber;
     NumberToString_other := fun _ => "0.5";
     ObjectToNumber := fun _ _ => nan;
     ObjectToString := fun _ _ _ => "[object Object]";
     JSON_stringify := sample_JSON_stringify;
     Function_toString := sample_Function_toString;
     Object_prototype :=
       [ ("constructor", VFun "function Object() { [native code] }");
         ("toString", VFun "function toString() { [native code] }") ];
     Runtime_prototype :=
       [ ("constructor", VFun "class Runtime { }");
         ("toString", VFun "toString() { }") ] |}.

(** Objects and a runtime to evaluate on. *)

Definition items : object :=
  {| own := [ ("one", VStr "one item"); ("other", VStr "many items") ];
     inherited := Object_prototype (Host := sample_host) |}.

Definition pronouns : object :=
  {| own := [ ("male", VStr "he"); ("female", VStr "she");
              ("other", VStr "they") ];
     inherited := Object_prototype (Host := sample_host) |}.

Definition guests : object :=
  {| own := [ ("0", VStr "no one"); ("one", VStr "you and one other");
              ("other", VStr "you and some others") ];
     inherited := Object_prototype (Host := sample_host) |}.

Definition no_other : object :=
  {| own := [ ("one", VStr "one item"); ("few", VStr "a few items") ];
     inherited := Object_prototype (Host := sample_host) |}.

Definition sample_compiler : object :=
  {| own := [ ("locales", VObj [ ("en", VBool true) ] []);
              ("runtime", VObj [ ("plural", VBool true);
                                 ("number", VBool true) ] []);
              ("formatters",
               VObj [ ("date", VFun "function date(v, lc, p) { }") ] []) ];
     inherited := Object_prototype (Host := sample_host) |}.

Definition sample_pluralFuncs : object :=
  {| own := [ ("en", VFun "function en(n, ord) { }");
              ("fr", VFun "function fr(n, ord) { }") ];
     inherited := Object_prototype (Host := sample_host) |}.

Definition sample_runtime : Runtime :=
  constructor (host := sample_host) {| strictNumberSign := VUndefined |}
              sample_compiler sample_pluralFuncs.

(** ** Induction on values

    The induction principle of [jsvalue] with a hypothesis for the own
    properties of an object. *)

Section jsvalue_induction.
Variable P : jsvalue -> Prop.
Hypothesis Pundefined : P VUndefined.
Hypothesis Pnull : P VNull.
Hypothesis Pbool : forall b, P (VBool b).
Hypothesis Pnum : forall x, P (VNum x).
Hypothesis Pstr : forall s, P (VStr s).
Hypothesis Pfun : forall src, P (VFun src).
Hypothesis Pobj :
  forall own inh, Forall (fun kv => P (snd kv)) own -> P (VObj own inh).

Fixpoint jsvalue_nested_ind (v : jsvalue) : P v :=
  match v with
  | VUndefined => Pundefined
  | VNull => Pnull
  | VBool b => Pbool b
  | VNum x => Pnum x
  | VStr s => Pstr s
  | VFun src => Pfun src
  | VObj own inh =>
      Pobj own inh
        ((fix each (l : props) : Forall (fun kv => P (snd kv)) l :=
            match l with
            | [] => Forall_nil _
            | kv :: r =>
                Forall_cons kv
                  (match kv as p return P (snd p) with
                   | (_, x) => jsvalue_nested_ind x
                   end)
                  (each r)
            end) own)
  end.

End jsvalue_induction.

(** * The command line: [bin/messageformat.js]

    The parts of the script that compute on their arguments: the
    normalisation of options in [getOptions], the loop that ends
    [readInput], [getAllObjects] and [simplify].  Reading files and the
    command line is not embedded; the functions below take what was read. *)

Fixpoint string_forallb (p : ascii -> bool) (s : string) : bool :=
  match s with
  | "" => true
  | String c r => p c && string_forallb p r
  end.

(** ** getOptions *)

(** An option that [knownOpts] types [[String, Array]], as found after the
    configuration files and the command line are merged: absent, a string,
    or an array of strings. *)
Inductive strings_option : Type :=
| Absent
| OneString (s : string)
| ManyStrings (l : list string).

Fixpoint trim_start (s : string) : string :=
  match s with
  | "" => ""
  | String c r => if is_whitespace c then trim_start r else s
  end.

Fixpoint trim_end (s : string) : string :=
  match s with
  | "" => ""
  | String c r =>
      match trim_end r with
      | "" => if is_whitespace c then "" else String c ""
      | r' => String c r'
      end
  end.

(** [s.trim()] *)
Definition trim (s : string) : string := trim_end (trim_start s).

Fixpoint after_first_dot (s : string) : option string :=
  match s with
  | "" => None
  | String c r => if Ascii.eqb c "."%char then Some r else after_first_dot r
  end.

(** The replacement applied to an extension: an optional prefix of
    characters other than the dot, closed by a dot, becomes a dot; without a
    dot in the text the empty match at the start becomes one. *)
Definition dot_extension (ext : string) : string :=
  "." ++ match after_first_dot ext with Some r => r | None => ext end.

(** The value given to [options.extensions]. *)
Definition getOptions_extensions (extensions : strings_option)
    : result (list string) :=
  match extensions with
  | Absent => Return [".json"; ".properties"]
  | OneString s =>
      if s =? "" then Return [".json"; ".properties"]
      else Throw TypeError        (* a string has no method [map] *)
  | ManyStrings [] => Return [".json"; ".properties"]
  | ManyStrings l => Return (map (fun ext => dot_extension (trim ext)) l)
  end.

Definition is_locale_separator (c : ascii) : bool :=
  Ascii.eqb c " "%char || Ascii.eqb c ","%char.

(** [lc.split(sep)] for the separator that matches a run of spaces and
    commas; [after] tells that the previous character belonged to a
    separator. *)
Fixpoint split_from (after : bool) (lc : string) : list string :=
  match lc with
  | "" => [""]
  | String c r =>
      if is_locale_separator c then
        if after then split_from true r else "" :: split_from true r
      else match split_from false r with
           | part :: parts => String c part :: parts
           | [] => [String c ""]
           end
  end.

Definition split_locales (lc : string) : list string := split_from false lc.

(** The value given to [options.locale]; [None] stands for [null]. *)
Definition getOptions_locale (locale : strings_option) : option (list string) :=
  let lc :=
    match locale with
    | ManyStrings l => Some (String.concat "," l)
    | OneString s => Some s
    | Absent => None
    end in
  match lc with
  | Some s => if s =? "" then None else Some (split_locales s)
  | None => None
  end.

(** ** readInput *)

(** [typeof v === 'object'] *)
Definition typeof_object (v : jsvalue) : bool :=
  match v with
  | VNull | VObj _ _ => true
  | _ => false
  end.

(** The loop that ends [readInput]: while [input] is an object with one
    key, it is replaced by the value of that key.  In the branch of objects
    [unwrapped] holds the result of the loop for each own property. *)
Fixpoint unwrap_input (input : jsvalue) : jsvalue :=
  match input with
  | VObj own _ =>
      let unwrapped :=
        (fix each (l : props) : props :=
           match l with
           | [] => []
           | (k, x) :: r => (k, unwrap_input x) :: each r
           end) own in
      match OwnPropertyKeys own with
      | [k] => own_value unwrapped k
      | _ => input
      end
  | _ => input
  end.

(** ** simplify *)

(** [obj[k]] where [obj] is an object, or a string and [k] one of its
    indices. *)
Definition member (obj : jsvalue) (k : string) : jsvalue :=
  match obj with
  | VObj own inh => get {| own := own; inherited := inh |} k
  | VStr s =>
      match String.get (N.to_nat (index_of k)) s with
      | Some c => VStr (String c "")
      | None => VUndefined
      end
  | _ => VUndefined
  end.

Definition non_object_value : exception := Error "non-object value".

Fixpoint getAllObjects (obj : jsvalue) (level : nat)
    : result (list jsvalue) :=
  if negb (typeof_object obj) then Throw non_object_value
  else match level with
       | 0 => Return [obj]
       | 1 => keys <- Object_keys obj ;; Return (map (member obj) keys)
       | S level' =>
           keys <- Object_keys obj ;;
           lists <- mapM (fun k => getAllObjects (member obj k) level')
                         keys ;;
           Return (List.concat lists)
       end.

(** The element of [keysets] computed for [obj]. *)
Definition keyset (obj : jsvalue) : result (list (list string)) :=
  keys <- Object_keys obj ;;
  mapM (fun k =>
          if negb (typeof_object (member obj k)) then Throw non_object_value
          else Object_keys (member obj k))
       keys.

(** [keysets[0][0][0]]; [None] stands for undefined. *)
Definition first_key (keysets : list (list (list string)))
    : result (option string) :=
  match keysets with
  | [] => Throw TypeError
  | [] :: _ => Throw TypeError
  | (ks :: _) :: _ => Return (hd_error ks)
  end.

(** The key [key0] names in a property access. *)
Definition key_name (key0 : option string) : string :=
  match key0 with Some k => k | None => "undefined" end.

(** The test of the [if]: every set of keys is the singleton of [key0]. *)
Definition all_single (key0 : option string)
    (keysets : list (list (list string))) : bool :=
  forallb
    (fun keyset =>
       forallb
         (fun ks =>
            match ks, key0 with
            | [k], Some k0 => k =? k0
            | _, _ => false
            end)
         keyset)
    keysets.

(** [Object.keys(obj).forEach(k => (obj[k] = obj[k][key0]))]; on a value
    that is no object the assignments change nothing. *)
Definition collapse (key0 : option string) (obj : jsvalue) : jsvalue :=
  match obj with
  | VObj own inh =>
      VObj (fold_left
              (fun o k => put k (member (member (VObj o inh) k) (key_name key0)) o)
              (OwnPropertyKeys own) own)
           inh
  | _ => obj
  end.

(** The tree after [f] has changed in place the objects that
    [getAllObjects(v, level)] returns; a value is a tree, no object of which
    is reached along two paths. *)
Fixpoint update_at (level : nat) (f : jsvalue -> jsvalue) (v : jsvalue)
    : jsvalue :=
  match level with
  | 0 => f v
  | S level' =>
      match v with
      | VObj own inh =>
          VObj (fold_left (fun o k => put k (update_at level' f (own_value own k)) o)
                          (OwnPropertyKeys own) own)
               inh
      | _ => v
      end
  end.

(** One round of the loop of [simplify]: the tree and the level after it. *)
Definition simplify_round (input : jsvalue) (lvl : nat)
    : result (jsvalue * nat) :=
  objects <- getAllObjects input lvl ;;
  keysets <- mapM keyset objects ;;
  key0 <- first_key keysets ;;
  if all_single key0 keysets
  then Return (update_at lvl (collapse key0) input, lvl)
  else Return (input, S lvl).

(** [simplify(input)], by the number of rounds allowed: the tree [input]
    has become, or the exception that escapes, or [None] when the rounds do
    not suffice.  The message of a TypeError of the engine is not
    ['non-object value']. *)
Fixpoint simplify_from (rounds : nat) (input : jsvalue) (lvl : nat)
    : option (result jsvalue) :=
  match rounds with
  | 0 => None
  | S rounds' =>
      match simplify_round input lvl with
      | Return (input', lvl') => simplify_from rounds' input' lvl'
      | Throw (Error message) =>
          if message =? "non-object value" then Some (Return input)
          else Some (Throw (Error message))
      | Throw TypeError => Some (Throw TypeError)
      end
  end.

Definition simplify (rounds : nat) (input : jsvalue) : option (result jsvalue) :=
  simplify_from rounds input 0.

(** * Properties *)

Lemma append_assoc (a b c : string) : (a ++ b) ++ c = a ++ (b ++ c).
Proof.
  induction a as [| ch a IH]; simpl; [reflexivity | now rewrite IH].
Qed.

Lemma append_empty_r (a : string) : a ++ "" = a.
Proof.
  induction a as [| ch a IH]; simpl; [reflexivity | now rewrite IH].
Qed.

Lemma throws_Throw {A : Type} (e : exception) : throws (@Throw A e).
Proof. now exists e. Qed.

Lemma not_throws_Return {A : Type} (a : A) : ~ throws (Return a).
Proof. intros [e H]; discriminate H. Qed.

(** ** Subtracting zero *)

Lemma Prim2SF_injective (x y : float) : Prim2SF x = Prim2SF y -> x = y.
Proof.
  intros H. rewrite <- (SF2Prim_Prim2SF x), <- (SF2Prim_Prim2SF y).
  now rewrite H.
Qed.

Lemma sub_zero_r (x : float) : (x - zero)%float = x.
Proof.
  apply Prim2SF_injective. rewrite sub_spec.
  change (Prim2SF zero) with (S754_zero false).
  destruct (Prim2SF x) as [[|] | [|] | | s m e]; reflexivity.
Qed.

(** ** The number primitive *)

Section NumberFacts.
Context {host : Host}.

Lemma ToBoolean_zero : ToBoolean (VNum zero) = false.
Proof. reflexivity. Qed.

Lemma ToBoolean_nan : ToBoolean (VNum nan) = false.
Proof. reflexivity. Qed.

Lemma js_or_falsy (offset d : jsvalue) :
  ToBoolean offset = false -> js_or offset d = d.
Proof. intros H; unfold js_or; now rewrite H. Qed.

Lemma js_or_truthy (offset d : jsvalue) :
  ToBoolean offset = true -> js_or offset d = offset.
Proof. intros H; unfold js_or; now rewrite H. Qed.

Lemma defaultNumber_falsy (value name offset : jsvalue) :
  ToBoolean offset = false -> defaultNumber value name offset = Return value.
Proof. intros H; unfold defaultNumber; now rewrite H. Qed.

Lemma defaultNumber_numeric (value name offset : jsvalue) :
  ToBoolean offset = true -> isNaN value = false ->
  defaultNumber value name offset = Return (js_sub value offset).
Proof. intros Ho Hv; unfold defaultNumber; now rewrite Ho, Hv. Qed.

Lemma defaultNumber_non_numeric (value name offset : jsvalue) :
  ToBoolean offset = true -> isNaN value = true ->
  defaultNumber value name offset =
  Throw (Error
    (("Can't apply offset:" ++ ToStringHint HintDefault offset
        ++ " to argument `")
     ++ ToStringHint HintDefault name
     ++ ("` with non-numerical value "
           ++ ToStringHint HintDefault (JSON_stringify value) ++ "."))).
Proof.
  intros Ho Hv; unfold defaultNumber, js_concat; rewrite Ho, Hv; simpl negb.
  cbv iota. do 2 f_equal. now rewrite !append_assoc.
Qed.

Lemma strictNumber_numeric (value name offset : jsvalue) :
  isNaN value = false ->
  strictNumber value name offset =
  Return (js_sub value (js_or offset (VNum zero))).
Proof. intros Hv; unfold strictNumber; now rewrite Hv. Qed.

Lemma strictNumber_non_numeric (value name offset : jsvalue) :
  isNaN value = true ->
  strictNumber value name offset =
  Throw (Error
    ("Argument `"
     ++ ToStringHint HintDefault name
     ++ ("` has non-numerical value "
           ++ ToStringHint HintDefault (JSON_stringify value) ++ "."))).
Proof.
  intros Hv; unfold strictNumber, js_concat; rewrite Hv.
  do 2 f_equal. now rewrite !append_assoc.
Qed.

(** C1, as amended.  With an offset that is zero or absent the default
    [number] returns the value itself, whatever the value is.  The strict
    [number] does not: it throws when the value is not numeric, and
    otherwise returns the number [value - 0], which is the value itself
    when the value is a number. *)
Theorem number_offset_zero (value name : jsvalue) :
  (defaultNumber value name (VNum zero) = Return value
   /\ defaultNumber value name VUndefined = Return value)
  /\ (forall offset, offset = VNum zero \/ offset = VUndefined ->
        (isNaN value = true -> throws (strictNumber value name offset))
        /\ (isNaN value = false ->
              strictNumber value name offset
              = Return (js_sub value (VNum zero)))
        /\ (forall x, value = VNum x -> is_nan x = false ->
              strictNumber value name offset = Return value)).
Proof.
  split; [split; reflexivity |].
  intros offset Ho.
  assert (Hz : js_or offset (VNum zero) = VNum zero)
    by (destruct Ho as [-> | ->]; reflexivity).
  split; [| split].
  - intros Hv. rewrite (strictNumber_non_numeric _ _ _ Hv); apply throws_Throw.
  - intros Hv. now rewrite (strictNumber_numeric _ _ _ Hv), Hz.
  - intros x -> Hx. rewrite (strictNumber_numeric (VNum x) _ _ Hx), Hz.
    unfold js_sub; cbn [ToNumber]. now rewrite sub_zero_r.
Qed.

(** C2.  With a non-zero (truthy) offset the default [number] throws exactly
    when the value is not numeric, the message of its error containing the
    name of the argument, and otherwise returns [value - offset].  The
    strict [number] throws exactly when the value is not numeric, whatever
    the offset, the message again containing the name, and otherwise
    returns [value - (offset || 0)]. *)
Theorem number_throws_iff_non_numeric (value name offset : jsvalue) :
  (ToBoolean offset = true ->
     (throws (defaultNumber value name offset) <-> isNaN value = true)
     /\ (isNaN value = true ->
           exists before after,
             defaultNumber value name offset
             = Throw (Error (before ++ ToStringHint HintDefault name ++ after)))
     /\ (isNaN value = false ->
           defaultNumber value name offset = Return (js_sub value offset)))
  /\ ((throws (strictNumber value name offset) <-> isNaN value = true)
      /\ (isNaN value = true ->
            exists before after,
              strictNumber value name offset
              = Throw (Error (before ++ ToStringHint HintDefault name ++ after)))
      /\ (isNaN value = false ->
            strictNumber value name offset
            = Return (js_sub value (js_or offset (VNum zero))))).
Proof.
  split.
  - intros Ho. repeat split.
    + intros Ht. destruct (isNaN value) eqn:Hv; [reflexivity |].
      rewrite (defaultNumber_numeric _ _ _ Ho Hv) in Ht.
      now apply not_throws_Return in Ht.
    + intros Hv. rewrite (defaultNumber_non_numeric _ _ _ Ho Hv).
      apply throws_Throw.
    + intros Hv. rewrite (defaultNumber_non_numeric _ _ _ Ho Hv).
      eexists _, _; reflexivity.
    + intros Hv. now apply defaultNumber_numeric.
  - repeat split.
    + intros Ht. destruct (isNaN value) eqn:Hv; [reflexivity |].
      rewrite (strictNumber_numeric _ _ _ Hv) in Ht.
      now apply not_throws_Return in Ht.
    + intros Hv. rewrite (strictNumber_non_numeric _ _ _ Hv).
      apply throws_Throw.
    + intros Hv. rewrite (strictNumber_non_numeric _ _ _ Hv).
      eexists _, _; reflexivity.
    + intros Hv. now apply strictNumber_numeric.
Qed.

(** C10.  The default [number] returns the value itself for every falsy
    offset, without looking at the value; 0, null, undefined and NaN are
    falsy. *)
Theorem defaultNumber_falsy_offset (value name : jsvalue) :
  (forall offset, ToBoolean offset = false ->
     defaultNumber value name offset = Return value)
  /\ ToBoolean (VNum zero) = false
  /\ ToBoolean VNull = false
  /\ ToBoolean VUndefined = false
  /\ ToBoolean (VNum nan) = false.
Proof.
  repeat split. intros offset Ho. now apply defaultNumber_falsy.
Qed.

End NumberFacts.

(** ** Objects *)

Lemma mem_true_assoc (k : string) (l : props) :
  mem k l = true -> exists v, assoc k l = Some v.
Proof.
  unfold mem; destruct (assoc k l) as [v |]; [now exists v | discriminate].
Qed.

Lemma mem_false_assoc (k : string) (l : props) :
  mem k l = false -> assoc k l = None.
Proof.
  unfold mem; destruct (assoc k l); [discriminate | reflexivity].
Qed.

Lemma get_own (o : object) (k : string) (v : jsvalue) :
  assoc k (own o) = Some v -> get o k = v.
Proof. intros H; unfold get; now rewrite H. Qed.

Lemma get_absent (o : object) (k : string) :
  has_property o k = false -> get o k = VUndefined.
Proof.
  unfold has_property; intros H.
  apply orb_false_iff in H as [Ho Hi].
  unfold get.
  now rewrite (mem_false_assoc _ _ Ho), (mem_false_assoc _ _ Hi).
Qed.

Lemma hasOwnProperty_has_property (o : object) (k : string) :
  hasOwnProperty o k = true -> has_property o k = true.
Proof. unfold hasOwnProperty, has_property; intros ->; reflexivity. Qed.

(** ** plural and select *)

Section DispatchFacts.
Context {host : Host}.

Lemma plural_exact (value offset : jsvalue)
    (lcfunc : jsvalue -> jsvalue -> jsvalue) (data : object)
    (isOrdinal : jsvalue) :
  hasOwnProperty data (ToPropertyKey value) = true ->
  plural value offset lcfunc data isOrdinal = get data (ToPropertyKey value).
Proof. intros H; unfold plural; now rewrite H. Qed.

Lemma plural_category (value offset : jsvalue)
    (lcfunc : jsvalue -> jsvalue -> jsvalue) (data : object)
    (isOrdinal : jsvalue) :
  hasOwnProperty data (ToPropertyKey value) = false ->
  plural value offset lcfunc data isOrdinal
  = case_of data
      (lcfunc (if ToBoolean offset then js_sub value offset else value)
              isOrdinal).
Proof. intros H; unfold plural, case_of; now rewrite H. Qed.

Lemma select_exact (value : jsvalue) (data : object) :
  hasOwnProperty data (ToPropertyKey value) = true ->
  select value data = get data (ToPropertyKey value).
Proof. intros H; unfold select; now rewrite H. Qed.

Lemma select_other (value : jsvalue) (data : object) :
  hasOwnProperty data (ToPropertyKey value) = false ->
  select value data = get data "other".
Proof. intros H; unfold select; now rewrite H. Qed.

(** C3, as amended.  [plural] returns [data[value]] when [value], before any
    offset is applied, names an own property of [data], whatever category
    the plural function would compute.  Otherwise the category is
    [lcfunc(value - offset, isOrdinal)] when the offset is truthy, and
    [lcfunc(value, isOrdinal)], on the value as it was passed and not on the
    number [value - 0], when the offset is falsy; the result is
    [data[category]] when [category in data], else [data.other].  With a
    truthy offset, on an exact match, or when the value is a number, this is
    the dispatch the specification describes. *)
Theorem plural_dispatch (value offset : jsvalue)
    (lcfunc : jsvalue -> jsvalue -> jsvalue) (data : object)
    (isOrdinal : jsvalue) :
  (hasOwnProperty data (ToPropertyKey value) = true ->
     plural value offset lcfunc data isOrdinal = get data (ToPropertyKey value)
     /\ plural value offset lcfunc data isOrdinal
        = plural_as_specified value offset lcfunc data isOrdinal)
  /\ (hasOwnProperty data (ToPropertyKey value) = false ->
        (ToBoolean offset = true ->
           plural value offset lcfunc data isOrdinal
           = case_of data (lcfunc (js_sub value offset) isOrdinal)
           /\ plural value offset lcfunc data isOrdinal
              = plural_as_specified value offset lcfunc data isOrdinal)
        /\ (ToBoolean offset = false ->
              plural value offset lcfunc data isOrdinal
              = case_of data (lcfunc value isOrdinal)))
  /\ (forall x, value = VNum x ->
        plural value offset lcfunc data isOrdinal
        = plural_as_specified value offset lcfunc data isOrdinal).
Proof.
  split; [intros Hown | split; [intros Hown; split; intros Ho |]].
  - split; [now apply plural_exact |].
    unfold plural, plural_as_specified; now rewrite Hown.
  - rewrite (plural_category _ _ _ _ _ Hown), Ho. split; [reflexivity |].
    unfold plural_as_specified, case_of.
    now rewrite Hown, (js_or_truthy _ _ Ho).
  - now rewrite (plural_category _ _ _ _ _ Hown), Ho.
  - intros x ->. unfold plural, plural_as_specified.
    destruct (hasOwnProperty data (ToPropertyKey (VNum x))); [reflexivity |].
    destruct (ToBoolean offset) eqn:Ho.
    + now rewrite (js_or_truthy _ _ Ho).
    + rewrite (js_or_falsy _ _ Ho). unfold js_sub; cbn [ToNumber].
      now rewrite sub_zero_r.
Qed.

(** C4, as amended.  [select] matches the value as a property key.  It
    returns [data[value]] when the key of [value] is an own property of
    [data], and [data.other] for every other value.  A string is its own
    key: it is matched as it is, character by character, so that keys
    differing in case are different keys, and on strings [select] is the
    exact match of the specification.  A value that is no string is matched
    through its conversion to a string: [select] gives it the case that it
    gives the text of the value, so that the number 1 reaches the case
    [1]. *)
Theorem select_key_match (value : jsvalue) (data : object) :
  (hasOwnProperty data (ToPropertyKey value) = true ->
     select value data = get data (ToPropertyKey value))
  /\ (hasOwnProperty data (ToPropertyKey value) = false ->
        select value data = get data "other")
  /\ select value data = select (VStr (ToPropertyKey value)) data
  /\ (forall s, value = VStr s ->
        ToPropertyKey value = s
        /\ select value data = select_as_specified value data)
  /\ (forall x, value = VNum x ->
        select value data = select (VStr (NumberToString x)) data)
  /\ (forall s k v w inh,
        s <> k -> s <> "other" -> k <> "other" ->
        select (VStr s)
               {| own := [(k, v); ("other", w)]; inherited := inh |} = w).
Proof.
  split; [apply select_exact |]. split; [apply select_other |].
  split; [reflexivity |].
  split; [intros s ->; split; reflexivity |].
  split; [intros x ->; reflexivity |].
  intros s k v w inh Hk Ho Hko.
  assert (E3 : (k =? "other") = false) by (now apply String.eqb_neq).
  assert (E1 : (k =? s) = false) by (apply String.eqb_neq; congruence).
  assert (E2 : ("other" =? s) = false) by (apply String.eqb_neq; congruence).
  unfold select, hasOwnProperty, mem, get, ToPropertyKey, ToStringHint.
  cbn [own inherited assoc]. rewrite E1, E2. cbn [assoc].
  now rewrite E3, String.eqb_refl.
Qed.

(** C5.  Every declared case is reached through its key: when [k] is an own
    property of [data], [select] and [plural] called with the string [k], or
    with any value whose property key is [k], return [data[k]]. *)
Theorem case_coverage (data : object) (k : string) :
  hasOwnProperty data k = true ->
  forall value, ToPropertyKey value = k ->
    select value data = get data k
    /\ (forall offset lcfunc isOrdinal,
          plural value offset lcfunc data isOrdinal = get data k).
Proof.
  intros Hk value <-. split.
  - now apply select_exact.
  - intros offset lcfunc isOrdinal. now apply plural_exact.
Qed.

(** C9.  Neither primitive checks that [data] has a case [other]: when
    [data] holds no own property for the value, no property for the
    computed category and no property [other], [plural] returns undefined;
    when it holds no own property for the value and no property [other],
    [select] returns undefined.  Neither throws. *)
Theorem missing_other_is_undefined (value : jsvalue) (data : object) :
  hasOwnProperty data (ToPropertyKey value) = false ->
  has_property data "other" = false ->
  select value data = VUndefined
  /\ (forall offset lcfunc isOrdinal,
        has_property data
          (ToPropertyKey
             (lcfunc (if ToBoolean offset then js_sub value offset else value)
                     isOrdinal)) = false ->
        plural value offset lcfunc data isOrdinal = VUndefined).
Proof.
  intros Hown Hother. split.
  - rewrite (select_other _ _ Hown). now apply get_absent.
  - intros offset lcfunc isOrdinal Hcat.
    rewrite (plural_category _ _ _ _ _ Hown). unfold case_of.
    rewrite Hcat. now apply get_absent.
Qed.

End DispatchFacts.

(** ** The constructor and a compiled message *)

Section ClassFacts.
Context {host : Host}.

(** C6, as amended.  For the function compiled for English from
    [{count, plural, offset:1 =0{no one} one{you and one other}
    other{you and # others}}], whichever variant of [number] the runtime was
    built with: a count of 0 gives [no one], a count of 1 gives
    [you and 0 others], a count of 2 gives [you and one other] and a count
    of 3 gives [you and 2 others]. *)
Theorem you_and_others_results (options : Options)
    (compiler pluralFuncs : object) :
  let this := constructor options compiler pluralFuncs in
  you_and_others this (VNum 0%float) = Return (VStr "no one")
  /\ you_and_others this (VNum 1%float) = Return (VStr "you and 0 others")
  /\ you_and_others this (VNum 2%float) = Return (VStr "you and one other")
  /\ you_and_others this (VNum 3%float) = Return (VStr "you and 2 others").
Proof.
  cbv zeta. unfold you_and_others, constructor; simpl rt_number.
  destruct (ToBoolean (strictNumberSign options)); repeat split.
Qed.

End ClassFacts.

(** ** Property lists *)

Lemma assoc_In (k : string) (l : props) (v : jsvalue) :
  assoc k l = Some v -> In (k, v) l.
Proof.
  induction l as [| [k' v'] l IH]; cbn [assoc]; [discriminate |].
  destruct (String.eqb_spec k' k) as [-> | _].
  - intros [= ->]; now left.
  - intros H; right; auto.
Qed.

Lemma In_keys_assoc (k : string) (l : props) :
  In k (map fst l) <-> exists v, assoc k l = Some v.
Proof.
  induction l as [| [k' v'] l IH]; cbn [map fst assoc In].
  - split; [tauto | intros [v H]; discriminate H].
  - destruct (String.eqb_spec k' k) as [-> | Hne].
    + split; [eauto | now left].
    + rewrite <- IH. split; [intros [H | H]; [contradiction | exact H] |].
      now right.
Qed.

Lemma assoc_put_same (k : string) (v : jsvalue) (l : props) :
  assoc k (put k v l) = Some v.
Proof.
  induction l as [| [k' v'] l IH]; cbn [put assoc].
  - now rewrite String.eqb_refl.
  - destruct (String.eqb_spec k' k) as [-> | Hne]; cbn [assoc].
    + now rewrite String.eqb_refl.
    + apply String.eqb_neq in Hne. now rewrite Hne.
Qed.

Lemma assoc_put_other (k k' : string) (v : jsvalue) (l : props) :
  k <> k' -> assoc k' (put k v l) = assoc k' l.
Proof.
  intros Hne. induction l as [| [k0 v0] l IH]; cbn [put assoc].
  - apply String.eqb_neq in Hne. now rewrite Hne.
  - destruct (String.eqb_spec k0 k) as [-> | H0]; cbn [assoc].
    + apply String.eqb_neq in Hne. now rewrite Hne.
    + now rewrite IH.
Qed.

Lemma keys_put (k k' : string) (v : jsvalue) (l : props) :
  In k' (map fst (put k v l)) <-> k' = k \/ In k' (map fst l).
Proof.
  rewrite !In_keys_assoc.
  destruct (string_dec k k') as [<- | Hne].
  - rewrite assoc_put_same. split; [now left | eauto].
  - rewrite (assoc_put_other _ _ _ _ Hne).
    split; [now right | intros [H | H]; [congruence | exact H]].
Qed.

Lemma NoDup_keys_put (k : string) (v : jsvalue) (l : props) :
  NoDup (map fst l) -> NoDup (map fst (put k v l)).
Proof.
  induction l as [| [k' v'] l IH]; cbn [put map fst]; intros Hnd.
  - constructor; [intros [] | constructor].
  - inversion Hnd as [| ? ? Hnotin Hnd']; subst.
    destruct (String.eqb_spec k' k) as [-> | Hne]; cbn [map fst].
    + now constructor.
    + constructor; [| now apply IH].
      rewrite keys_put. intros [-> | H]; [now apply Hne | contradiction].
Qed.

Section Assignments.
Variables (f : string -> string) (g : string -> jsvalue).

Let assign (xs : list string) (o : props) : props :=
  fold_left (fun obj x => put (f x) (g x) obj) xs o.



Lemma assoc_assign_absent (xs : list string) (o : props) (k : string) :
  (forall x, In x xs -> f x <> k) -> assoc k (assign xs o) = assoc k o.
Proof.
  revert o; induction xs as [| a xs IH]; intros o Hk; cbn [assign fold_left];
    [reflexivity |].
  fold (assign xs (put (f a) (g a) o)).
  rewrite IH by (intros x Hx; apply Hk; now right).
  apply assoc_put_other. apply Hk; now left.
Qed.

Lemma assoc_assign_unique (xs : list string) (o : props) (x : string) :
  In x xs ->
  (forall x', In x' xs -> f x' = f x -> x' = x) ->
  assoc (f x) (assign xs o) = Some (g x).
Proof.
  revert o; induction xs as [| a xs IH]; intros o Hx Hu; [destruct Hx |].
  cbn [assign fold_left]. fold (assign xs (put (f a) (g a) o)).
  destruct (in_dec string_dec x xs) as [Hin | Hnotin].
  - apply IH; [exact Hin |]. intros x' Hx'; apply Hu; now right.
  - destruct Hx as [-> | Hx]; [| contradiction].
    rewrite assoc_assign_absent; [apply assoc_put_same |].
    intros x' Hx' Hf. apply Hnotin.
    rewrite <- (Hu x' (or_intror Hx') Hf). exact Hx'.
Qed.

End Assignments.

(** ** Enumeration of keys *)

Lemma mem_string_In (k : string) (l : list string) :
  mem_string k l = true <-> In k l.
Proof.
  induction l as [| k' l IH]; cbn [mem_string In].
  - split; [discriminate | tauto].
  - rewrite orb_true_iff, IH, String.eqb_eq. tauto.
Qed.

Lemma mem_string_not_In (k : string) (l : list string) :
  mem_string k l = false <-> ~ In k l.
Proof.
  rewrite <- mem_string_In. destruct (mem_string k l); split; congruence.
Qed.

Lemma In_distinct (seen l : list string) (k : string) :
  In k (distinct seen l) <-> In k l /\ ~ In k seen.
Proof.
  revert seen; induction l as [| a l IH]; intros seen; cbn [distinct In].
  - tauto.
  - destruct (mem_string a seen) eqn:Ha.
    + apply mem_string_In in Ha. rewrite IH. split.
      * intros [H1 H2]; split; [now right | exact H2].
      * intros [[-> | H1] H2]; [contradiction | now split].
    + apply mem_string_not_In in Ha. cbn [In]. rewrite IH. cbn [In]. split.
      * intros [-> | [H1 H2]]; [split; [now left | exact Ha] |].
        split; [now right | tauto].
      * intros [[-> | H1] H2]; [now left |].
        destruct (string_dec a k) as [-> | Hne]; [now left |].
        right; split; [exact H1 | intros [E | E]; [now apply Hne | now apply H2]].
Qed.

Lemma NoDup_distinct (seen l : list string) : NoDup (distinct seen l).
Proof.
  revert seen; induction l as [| a l IH]; intros seen; cbn [distinct].
  - constructor.
  - destruct (mem_string a seen); [apply IH |].
    constructor; [| apply IH].
    rewrite In_distinct. intros [_ H]; apply H; now left.
Qed.

Lemma In_insert_index (k x : string) (l : list string) :
  In x (insert_index k l) <-> x = k \/ In x l.
Proof.
  induction l as [| a l IH]; cbn [insert_index In].
  - split; [intros [H | []]; now left | intros [H | []]; now left].
  - destruct (index_of k <=? index_of a)%N; cbn [In]; [| rewrite IH];
      intuition congruence.
Qed.

Lemma NoDup_insert_index (k : string) (l : list string) :
  ~ In k l -> NoDup l -> NoDup (insert_index k l).
Proof.
  induction l as [| a l IH]; cbn [insert_index]; intros Hk Hnd.
  - constructor; [intros [] | constructor].
  - destruct (index_of k <=? index_of a)%N; [now constructor |].
    inversion Hnd as [| ? ? Ha Hnd']; subst.
    constructor.
    + rewrite In_insert_index. intros [-> | H]; [apply Hk; now left | contradiction].
    + apply IH; [intros H; apply Hk; now right | exact Hnd'].
Qed.

Lemma In_sort_indices (x : string) (l : list string) :
  In x (sort_indices l) <-> In x l.
Proof.
  induction l as [| a l IH]; cbn [sort_indices fold_right In]; [tauto |].
  fold (sort_indices l). rewrite In_insert_index, IH.
  split; (intros [H | H]; [left; now symmetry | now right]).
Qed.

Lemma NoDup_sort_indices (l : list string) :
  NoDup l -> NoDup (sort_indices l).
Proof.
  induction l as [| a l IH]; cbn [sort_indices fold_right]; intros Hnd;
    [constructor |].
  fold (sort_indices l). inversion Hnd as [| ? ? Ha Hnd']; subst.
  apply NoDup_insert_index; [now rewrite In_sort_indices | now apply IH].
Qed.

Lemma In_OwnPropertyKeys (k : string) (l : props) :
  In k (OwnPropertyKeys l) <-> In k (map fst l).
Proof.
  unfold OwnPropertyKeys.
  rewrite in_app_iff, In_sort_indices, !filter_In, In_distinct.
  cbn [In]. destruct (is_array_index k); cbn [negb]; intuition congruence.
Qed.

Lemma NoDup_OwnPropertyKeys (l : props) : NoDup (OwnPropertyKeys l).
Proof.
  unfold OwnPropertyKeys. apply NoDup_app.
  - apply NoDup_sort_indices, NoDup_filter, NoDup_distinct.
  - apply NoDup_filter, NoDup_distinct.
  - intros a. rewrite In_sort_indices, !filter_In.
    intros [_ H1] [_ H2]. rewrite H1 in H2; discriminate H2.
Qed.

Lemma OwnPropertyKeys_nil (l : props) : OwnPropertyKeys l = [] <-> l = [].
Proof.
  split; [| intros ->; reflexivity].
  destruct l as [| [k v] l]; [reflexivity |]. intros H.
  assert (Hin : In k (OwnPropertyKeys ((k, v) :: l)))
    by (apply In_OwnPropertyKeys; now left).
  rewrite H in Hin. destruct Hin.
Qed.

(** ** Rendering *)

Lemma mapM_ext_in {A B : Type} (f g : A -> result B) (l : list A) :
  (forall a, In a l -> f a = g a) -> mapM f l = mapM g l.
Proof.
  induction l as [| a l IH]; intros H; cbn [mapM]; [reflexivity |].
  rewrite (H a (or_introl eq_refl)), IH; [reflexivity |].
  intros b Hb; apply H; now right.
Qed.

Lemma mapM_total {A B : Type} (f : A -> result B) (l : list A) :
  (forall a, In a l -> exists b, f a = Return b) ->
  exists bs, mapM f l = Return bs.
Proof.
  induction l as [| a l IH]; intros H; cbn [mapM]; [now exists [] |].
  destruct (H a (or_introl eq_refl)) as [b Hb].
  destruct IH as [bs Hbs]; [intros c Hc; apply H; now right |].
  rewrite Hb, Hbs. cbn [bind]. now exists (b :: bs).
Qed.

Lemma mapM_Return {A B : Type} (f : A -> result B) (g : A -> B) (l : list A) :
  (forall a, In a l -> f a = Return (g a)) -> mapM f l = Return (map g l).
Proof.
  induction l as [| a l IH]; intros H; cbn [mapM map]; [reflexivity |].
  rewrite (H a (or_introl eq_refl)), IH; [reflexivity |].
  intros b Hb; apply H; now right.
Qed.

Lemma mapM_Forall2 {A B : Type} (f : A -> result B) (l : list A) (bs : list B) :
  mapM f l = Return bs -> Forall2 (fun a b => f a = Return b) l bs.
Proof.
  revert bs; induction l as [| a l IH]; intros bs; cbn [mapM].
  - intros [= <-]. constructor.
  - destruct (f a) as [b |] eqn:Ha; cbn [bind]; [| discriminate].
    destruct (mapM f l) as [bs' |]; cbn [bind]; [| discriminate].
    intros [= <-]. constructor; [exact Ha | now apply IH].
Qed.

Section RenderingFacts.
Context {host : Host}.
Variable propname : string -> string.

Lemma _stringify_VObj (own inh : props) (level : nat) :
  _stringify propname (VObj own inh) level
  = (s <- mapM (fun i => v <- _stringify propname (own_value own i) (S level) ;;
                         Return (entry propname level i v))
               (OwnPropertyKeys own) ;;
     Return (assemble level s)).
Proof.
  cbn [_stringify]. f_equal. apply mapM_ext_in. intros i _. f_equal.
  unfold own_value. induction own as [| [k x] own IH]; cbn [lookup_rendered assoc].
  - reflexivity.
  - destruct (k =? i); [reflexivity | exact IH].
Qed.

Lemma defined_own (own inh : props) (k : string) (x : jsvalue) :
  defined (VObj own inh) = true -> In (k, x) own -> defined x = true.
Proof.
  cbn [defined]. induction own as [| [k' x'] own IH]; intros Hd Hin;
    [destruct Hin |].
  apply andb_true_iff in Hd as [Hx Hr].
  destruct Hin as [[= -> ->] | Hin]; [exact Hx | now apply IH].
Qed.

Lemma _stringify_defined (v : jsvalue) :
  defined v = true ->
  forall level, exists text, _stringify propname v level = Return text.
Proof.
  induction v as [| | b | x | s | src | own inh IH] using jsvalue_nested_ind;
    intros Hd level; try (eexists; reflexivity); [discriminate Hd |].
  rewrite _stringify_VObj.
  destruct (mapM_total
              (fun i => v <- _stringify propname (own_value own i) (S level) ;;
                        Return (entry propname level i v))
              (OwnPropertyKeys own)) as [bs Hbs].
  - intros i Hi. apply In_OwnPropertyKeys, In_keys_assoc in Hi as [x Hx].
    unfold own_value; rewrite Hx. apply assoc_In in Hx.
    rewrite Forall_forall in IH.
    destruct (IH (i, x) Hx (defined_own _ _ _ _ Hd Hx) (S level)) as [t Ht].
    cbn [snd] in Ht. rewrite Ht. cbn [bind]. eexists; reflexivity.
  - rewrite Hbs. cbn [bind]. eexists; reflexivity.
Qed.

End RenderingFacts.


(** * Instances on the sample host *)

#[local] Existing Instance sample_host.

Example NumberToString_integers :
  NumberToString 2%float = "2" /\ NumberToString (-17)%float = "-17"
  /\ NumberToString neg_zero = "0" /\ NumberToString nan = "NaN".
Proof. repeat split. Qed.

Example OwnPropertyKeys_order :
  OwnPropertyKeys [ ("b", VNull); ("10", VNull); ("2", VNull); ("a", VNull);
                    ("b", VNull); ("01", VNull) ]
  = [ "2"; "10"; "b"; "a"; "01" ].
Proof. reflexivity. Qed.

Example defaultNumber_message :
  defaultNumber (VStr "x") (VStr "count") (VNum 1%float)
  = Throw (Error ("Can't apply offset:1 to argument `count` with "
                  ++ "non-numerical value " ++ quote ++ "x" ++ quote ++ ".")).
Proof. reflexivity. Qed.

Example function_text_unindents :
  function_text ("function en(n, ord) {" ++ nl ++ "    return 'other';" ++ nl
                 ++ "  }")
  = "function (n, ord) {" ++ nl ++ "  return 'other';" ++ nl ++ "}".
Proof. reflexivity. Qed.

Example toString_sample_runtime :
  toString (fun lc => lc) (fun i => i) sample_runtime
  = Return
      ("var en = function (n, ord) { };" ++ nl
       ++ "var plural = function(value, offset, lcfunc, data, isOrdinal) { };"
       ++ nl
       ++ "var number = function(value, name, offset) { };" ++ nl
       ++ "var fmt = {" ++ nl
       ++ "  date: function (v, lc, p) { }" ++ nl
       ++ "};" ++ nl).
Proof. reflexivity. Qed.

(** The strict [number] applied to [undefined] with the offset 0 throws; it
    does not return [undefined]. *)
Lemma strictNumber_offset_zero_counterexample :
  strictNumber (host := sample_host) VUndefined (VStr "count") (VNum zero)
  <> Return VUndefined.
Proof. discriminate. Qed.

Lemma number_offset_zero_witness :
  (VNum zero = VNum zero \/ VNum zero = VUndefined)
  /\ isNaN (host := sample_host) (VStr "12") = false
  /\ strictNumber (host := sample_host) (VStr "12") (VStr "count") (VNum zero)
     = Return (VNum 12%float).
Proof.
  split; [now left |]. split; [reflexivity |].
  exact (proj1 (proj2 (proj2 (number_offset_zero (host := sample_host)
                                (VStr "12") (VStr "count"))
                             (VNum zero) (or_introl eq_refl)))
               eq_refl).
Defined.

Lemma number_throws_iff_non_numeric_witness :
  ToBoolean (VNum 2%float) = true
  /\ isNaN (host := sample_host) (VNum 5%float) = false
  /\ defaultNumber (host := sample_host) (VNum 5%float) (VStr "count")
                   (VNum 2%float)
     = Return (VNum 3%float).
Proof.
  split; [reflexivity |]. split; [reflexivity |].
  exact (proj2 (proj2 (proj1 (number_throws_iff_non_numeric
                                (host := sample_host)
                                (VNum 5%float) (VStr "count") (VNum 2%float))
                             eq_refl))
               eq_refl).
Defined.

Lemma defaultNumber_falsy_offset_witness :
  ToBoolean (VNum nan) = false
  /\ defaultNumber (host := sample_host) (VStr "five") (VStr "count") (VNum nan)
     = Return (VStr "five").
Proof.
  split; [reflexivity |].
  exact (proj1 (defaultNumber_falsy_offset (host := sample_host)
                  (VStr "five") (VStr "count"))
               (VNum nan) eq_refl).
Defined.

(** With no offset and the string ["1"], [plural] hands the string to the
    plural function, where the specification hands it the number 1. *)
Lemma plural_raw_value_counterexample :
  plural (host := sample_host) (VStr "1") (VNum zero) strict_one items
         VUndefined
  = VStr "many items"
  /\ plural_as_specified (host := sample_host) (VStr "1") (VNum zero)
                         strict_one items VUndefined
     = VStr "one item"
  /\ plural (host := sample_host) (VStr "1") (VNum zero) strict_one items
            VUndefined
     <> plural_as_specified (host := sample_host) (VStr "1") (VNum zero)
                            strict_one items VUndefined.
Proof. repeat split. discriminate. Qed.

Lemma plural_dispatch_witness :
  hasOwnProperty items (ToPropertyKey (host := sample_host) (VStr "1")) = false
  /\ ToBoolean (VNum zero) = false
  /\ plural (host := sample_host) (VStr "1") (VNum zero) strict_one items
            VUndefined
     = VStr "many items".
Proof.
  split; [reflexivity |]. split; [reflexivity |].
  exact (proj2 (proj1 (proj2 (plural_dispatch (host := sample_host)
                                (VStr "1") (VNum zero) strict_one items
                                VUndefined))
                      eq_refl)
               eq_refl).
Defined.

(** Called with the number 0, [select] returns the case [0]; an exact match
    of strings without coercion gives the number the case [other]. *)
Lemma select_coerces_counterexample :
  select (host := sample_host) (VNum zero) guests = VStr "no one"
  /\ select_as_specified (VNum zero) guests = VStr "you and some others"
  /\ select (host := sample_host) (VNum zero) guests
     <> select_as_specified (VNum zero) guests.
Proof. repeat split. discriminate. Qed.

Lemma select_key_match_witness :
  hasOwnProperty pronouns (ToPropertyKey (host := sample_host) (VStr "Male"))
  = false
  /\ select (host := sample_host) (VStr "Male") pronouns = VStr "they"
  /\ select (host := sample_host) (VNum one) guests
     = select (host := sample_host) (VStr "1") guests.
Proof.
  split; [reflexivity |].
  split.
  - exact (proj1 (proj2 (select_key_match (host := sample_host)
                           (VStr "Male") pronouns))
                 eq_refl).
  - exact (proj1 (proj2 (proj2 (proj2 (proj2
             (select_key_match (host := sample_host) (VNum one) guests)))))
             one eq_refl).
Defined.

Lemma case_coverage_witness :
  hasOwnProperty guests "0" = true
  /\ ToPropertyKey (host := sample_host) (VNum 0%float) = "0"
  /\ select (host := sample_host) (VNum 0%float) guests = VStr "no one"
  /\ plural (host := sample_host) (VNum 0%float) (VNum 1%float) en guests
            VUndefined
     = VStr "no one".
Proof.
  split; [reflexivity |]. split; [reflexivity |].
  pose proof (case_coverage (host := sample_host) guests "0" eq_refl
                (VNum 0%float) eq_refl) as [Hs Hp].
  split; [exact Hs | exact (Hp (VNum 1%float) en VUndefined)].
Defined.

Lemma missing_other_is_undefined_witness :
  hasOwnProperty no_other (ToPropertyKey (host := sample_host) (VNum 5%float))
  = false
  /\ has_property no_other "other" = false
  /\ select (host := sample_host) (VNum 5%float) no_other = VUndefined
  /\ plural (host := sample_host) (VNum 5%float) (VNum zero) en no_other
            VUndefined
     = VUndefined.
Proof.
  split; [reflexivity |]. split; [reflexivity |].
  pose proof (missing_other_is_undefined (host := sample_host)
                (VNum 5%float) no_other eq_refl eq_refl) as [Hs Hp].
  split; [exact Hs | exact (Hp (VNum zero) en VUndefined eq_refl)].
Defined.

(** A count of 1 does not give [you and one other]. *)
Lemma you_and_others_counterexample :
  you_and_others (host := sample_host) sample_runtime (VNum 1%float)
  <> Return (VStr "you and one other").
Proof. discriminate. Qed.

(** * Further properties of the runtime *)

Section MoreNumberFacts.
Context {host : Host}.

(** X1.  The strict [number] is the stricter variant: whenever it returns,
    the default one returns as well; with a truthy offset the two results
    are the same, and on a number that is not NaN the two variants agree for
    every offset. *)
Theorem strictNumber_stricter (value name offset : jsvalue) :
  (forall r, strictNumber value name offset = Return r ->
     exists r', defaultNumber value name offset = Return r')
  /\ (forall r, ToBoolean offset = true ->
        strictNumber value name offset = Return r ->
        defaultNumber value name offset = Return r)
  /\ (forall x, value = VNum x -> is_nan x = false ->
        strictNumber value name offset = defaultNumber value name offset).
Proof.
  assert (Hnum : forall r, strictNumber value name offset = Return r ->
                           isNaN value = false).
  { intros r Hr. destruct (isNaN value) eqn:Hv; [| reflexivity].
    rewrite (strictNumber_non_numeric _ _ _ Hv) in Hr. discriminate Hr. }
  split; [| split].
  - intros r Hr. pose proof (Hnum r Hr) as Hv.
    destruct (ToBoolean offset) eqn:Ho.
    + rewrite (defaultNumber_numeric _ _ _ Ho Hv). eexists; reflexivity.
    + rewrite (defaultNumber_falsy _ _ _ Ho). eexists; reflexivity.
  - intros r Ho Hr. pose proof (Hnum r Hr) as Hv.
    rewrite (strictNumber_numeric _ _ _ Hv), (js_or_truthy _ _ Ho) in Hr.
    now rewrite (defaultNumber_numeric _ _ _ Ho Hv).
  - intros x -> Hx.
    rewrite (strictNumber_numeric (VNum x) _ _ Hx).
    destruct (ToBoolean offset) eqn:Ho.
    + now rewrite (defaultNumber_numeric (VNum x) _ _ Ho Hx),
                  (js_or_truthy _ _ Ho).
    + rewrite (defaultNumber_falsy _ _ _ Ho), (js_or_falsy _ _ Ho).
      unfold js_sub; cbn [ToNumber]. now rewrite sub_zero_r.
Qed.

End MoreNumberFacts.

Section MoreDispatchFacts.
Context {host : Host}.

(** X2.  [select] is [plural] with a plural function whose only category is
    [other]: for such a function the two return the same case, whatever the
    offset and the ordinal flag. *)
Theorem plural_other_is_select (value offset : jsvalue)
    (lcfunc : jsvalue -> jsvalue -> jsvalue) (data : object)
    (isOrdinal : jsvalue) :
  (forall n ord, lcfunc n ord = VStr "other") ->
  plural value offset lcfunc data isOrdinal = select value data.
Proof.
  intros Hother. unfold plural, select.
  destruct (hasOwnProperty data (ToPropertyKey value)); [reflexivity |].
  rewrite Hother. cbn [ToPropertyKey ToStringHint].
  now destruct (has_property data "other").
Qed.

(** X3.  What [plural] and [select] return is a property of [data] or
    undefined: they build no value of their own. *)
Theorem dispatch_returns_a_case (value offset : jsvalue)
    (lcfunc : jsvalue -> jsvalue -> jsvalue) (data : object)
    (isOrdinal : jsvalue) :
  (plural value offset lcfunc data isOrdinal = VUndefined
   \/ exists k, has_property data k = true
                /\ plural value offset lcfunc data isOrdinal = get data k)
  /\ (select value data = VUndefined
      \/ exists k, has_property data k = true
                   /\ select value data = get data k).
Proof.
  assert (Hother : forall r, r = get data "other" ->
            r = VUndefined
            \/ exists k, has_property data k = true /\ r = get data k).
  { intros r ->. destruct (has_property data "other") eqn:H.
    - right. now exists "other".
    - left. now apply get_absent. }
  split.
  - unfold plural.
    destruct (hasOwnProperty data (ToPropertyKey value)) eqn:Hown.
    + right. exists (ToPropertyKey value).
      split; [now apply hasOwnProperty_has_property | reflexivity].
    + cbv zeta.
      destruct (has_property data (ToPropertyKey (lcfunc _ isOrdinal))) eqn:Hk.
      * right. eexists; split; [exact Hk | reflexivity].
      * now apply Hother.
  - unfold select.
    destruct (hasOwnProperty data (ToPropertyKey value)) eqn:Hown.
    + right. exists (ToPropertyKey value).
      split; [now apply hasOwnProperty_has_property | reflexivity].
    + now apply Hother.
Qed.

(** X4.  The exact match looks at own properties only, the category match
    at inherited ones too.  For a key [k] that [data] only inherits,
    [select] called with [k] falls through to [data.other], whereas [plural]
    returns the inherited value when the plural function answers [k]. *)
Theorem inherited_key_asymmetry (data : object) (k : string) (v : jsvalue) :
  hasOwnProperty data k = false ->
  assoc k (inherited data) = Some v ->
  select (VStr k) data = get data "other"
  /\ (forall value offset lcfunc isOrdinal,
        hasOwnProperty data (ToPropertyKey value) = false ->
        ToPropertyKey
          (lcfunc (if ToBoolean offset then js_sub value offset else value)
                  isOrdinal) = k ->
        plural value offset lcfunc data isOrdinal = v).
Proof.
  intros Hown Hinh.
  assert (Hget : get data k = v).
  { unfold get. unfold hasOwnProperty in Hown.
    now rewrite (mem_false_assoc _ _ Hown), Hinh. }
  assert (Hin : has_property data k = true).
  { unfold has_property, mem. rewrite Hinh. apply orb_true_r. }
  split.
  - now apply select_other.
  - intros value offset lcfunc isOrdinal Hv Hk.
    rewrite (plural_category _ _ _ _ _ Hv). unfold case_of.
    now rewrite Hk, Hin.
Qed.

End MoreDispatchFacts.

(** ** Errors of the rendering *)

Lemma mapM_Throw_inv {A B : Type} (f : A -> result B) (l : list A)
    (e : exception) :
  mapM f l = Throw e -> exists a, In a l /\ f a = Throw e.
Proof.
  induction l as [| a l IH]; cbn [mapM]; [discriminate |].
  destruct (f a) as [b | e'] eqn:Ha; cbn [bind].
  - destruct (mapM f l) as [bs | e'']; cbn [bind]; [discriminate |].
    intros [= ->]. destruct (IH eq_refl) as [a' [Hin Ha']].
    exists a'; split; [now right | exact Ha'].
  - intros [= ->]. exists a; split; [now left | exact Ha].
Qed.

Lemma mapM_Throw_intro {A B : Type} (f : A -> result B) (l : list A)
    (a : A) (e : exception) :
  In a l -> f a = Throw e ->
  (forall b e', In b l -> f b = Throw e' -> e' = e) ->
  mapM f l = Throw e.
Proof.
  induction l as [| c l IH]; intros Hin Ha Hall; [destruct Hin |].
  cbn [mapM]. destruct (f c) as [b | e'] eqn:Hc; cbn [bind].
  - destruct Hin as [-> | Hin]; [rewrite Ha in Hc; discriminate Hc |].
    rewrite IH; [reflexivity | exact Hin | exact Ha |].
    intros b' e'' Hb'; apply Hall; now right.
  - f_equal. apply (Hall c e'); [now left | exact Hc].
Qed.

Lemma Object_keys_cases (v : jsvalue) :
  (exists ks, Object_keys v = Return ks) \/ Object_keys v = Throw TypeError.
Proof. destruct v; cbn [Object_keys]; eauto. Qed.

Lemma Object_keys_missing (v : jsvalue) :
  v = VUndefined \/ v = VNull -> Object_keys v = Throw TypeError.
Proof. intros [-> | ->]; reflexivity. Qed.

Section RenderingErrors.
Context {host : Host}.
Variables funcname propname : string -> string.

Lemma _stringify_only_TypeError (v : jsvalue) :
  forall level e, _stringify propname v level = Throw e -> e = TypeError.
Proof.
  induction v as [| | b | x | s | src | own inh IH] using jsvalue_nested_ind;
    intros level e; try discriminate; [now intros [= <-] |].
  rewrite _stringify_VObj.
  destruct (mapM _ (OwnPropertyKeys own)) as [bs | e'] eqn:Hm; cbn [bind];
    [discriminate |].
  intros [= ->]. apply mapM_Throw_inv in Hm as [i [Hi Hf]].
  apply In_OwnPropertyKeys, In_keys_assoc in Hi as [x Hx].
  unfold own_value in Hf; rewrite Hx in Hf. apply assoc_In in Hx.
  rewrite Forall_forall in IH. specialize (IH (i, x) Hx (S level)).
  cbn [snd] in IH.
  destruct (_stringify propname x (S level)) as [t | e']; cbn [bind] in Hf;
    [discriminate Hf |].
  injection Hf as <-. now apply IH.
Qed.

Lemma toString_text (this : Runtime) (obj : props) :
  rendered_object funcname this = Return obj ->
  toString funcname propname this
  = (s <- mapM (fun k => v <- _stringify propname (own_value obj k) 1 ;;
                         Return (entry propname 0 k v))
               (OwnPropertyKeys obj) ;;
     Return (String.concat "" s)).
Proof.
  intros H. unfold toString. rewrite H. cbn [bind]. apply _stringify_VObj.
Qed.

Lemma rendered_object_tables (this : Runtime)
    (locales li runtime ri formatters fi : props) :
  get (rt_compiler this) "locales" = VObj locales li ->
  get (rt_compiler this) "runtime" = VObj runtime ri ->
  get (rt_compiler this) "formatters" = VObj formatters fi ->
  rendered_object funcname this
  = Return
      (let obj1 :=
         fold_left
           (fun obj lc => put (funcname lc) (get (rt_pluralFuncs this) lc) obj)
           (OwnPropertyKeys locales) [] in
       let obj2 :=
         fold_left (fun obj fn => put fn (get (instance this) fn) obj)
                   (OwnPropertyKeys runtime) obj1 in
       match OwnPropertyKeys formatters with
       | [] => obj2
       | _ :: _ => put "fmt" (VObj formatters fi) obj2
       end).
Proof.
  intros Hl Hr Hf. unfold rendered_object. rewrite Hl, Hr, Hf.
  cbn [Object_keys bind]. cbv zeta.
  now destruct (OwnPropertyKeys formatters).
Qed.

(** X5.  [toString] raises nothing but a TypeError, and it does raise one
    when one of the compiler's tables [locales], [runtime] and [formatters]
    is undefined or null, and when a property of the rendered object is
    undefined, as it is for a key of [runtime] that names no member of the
    runtime and for a locale without a plural function. *)
Theorem toString_throws_TypeError (this : Runtime) :
  (forall e, toString funcname propname this = Throw e -> e = TypeError)
  /\ (forall table,
        In table ["locales"; "runtime"; "formatters"] ->
        get (rt_compiler this) table = VUndefined
        \/ get (rt_compiler this) table = VNull ->
        toString funcname propname this = Throw TypeError)
  /\ (forall obj k,
        rendered_object funcname this = Return obj ->
        In k (OwnPropertyKeys obj) ->
        own_value obj k = VUndefined ->
        toString funcname propname this = Throw TypeError).
Proof.
  assert (Honly : forall e,
            toString funcname propname this = Throw e -> e = TypeError).
  { intros e. unfold toString, rendered_object.
    destruct (Object_keys_cases (get (rt_compiler this) "locales"))
      as [[k1 ->] | ->]; cbn [bind]; [| now intros [= <-]].
    destruct (Object_keys_cases (get (rt_compiler this) "runtime"))
      as [[k2 ->] | ->]; cbn [bind]; [| now intros [= <-]].
    destruct (Object_keys_cases (get (rt_compiler this) "formatters"))
      as [[k3 ->] | ->]; cbn [bind]; [| now intros [= <-]].
    apply _stringify_only_TypeError. }
  split; [exact Honly |]. split.
  - intros table Htable Hmissing.
    apply Object_keys_missing in Hmissing.
    destruct (toString funcname propname this) as [text | e] eqn:Ht;
      [| now rewrite (Honly e eq_refl)].
    exfalso. unfold toString, rendered_object in Ht.
    destruct Htable as [<- | [<- | [<- | []]]].
    + rewrite Hmissing in Ht. discriminate Ht.
    + destruct (Object_keys (get (rt_compiler this) "locales"));
        cbn [bind] in Ht; [| discriminate Ht].
      rewrite Hmissing in Ht. discriminate Ht.
    + destruct (Object_keys (get (rt_compiler this) "locales"));
        cbn [bind] in Ht; [| discriminate Ht].
      destruct (Object_keys (get (rt_compiler this) "runtime"));
        cbn [bind] in Ht; [| discriminate Ht].
      rewrite Hmissing in Ht. discriminate Ht.
  - intros obj k Hobj Hk Hundef.
    rewrite (toString_text this obj Hobj).
    rewrite (mapM_Throw_intro _ (OwnPropertyKeys obj) k TypeError);
      [reflexivity | exact Hk | now rewrite Hundef |].
    intros b e' _ Hb.
    destruct (_stringify propname (own_value obj b) 1) as [t | e''] eqn:Hs;
      cbn [bind] in Hb; [discriminate Hb |].
    injection Hb as <-. exact (_stringify_only_TypeError _ 1 _ Hs).
Qed.

End RenderingErrors.

(** ** The values and the order of the rendered properties *)

Lemma distinct_seen_ext (s1 s2 l : list string) :
  (forall x, In x s1 <-> In x s2) -> distinct s1 l = distinct s2 l.
Proof.
  revert s1 s2; induction l as [| k l IH]; intros s1 s2 Hs; cbn [distinct];
    [reflexivity |].
  assert (Hm : mem_string k s1 = mem_string k s2).
  { destruct (mem_string k s1) eqn:H1; symmetry.
    - apply mem_string_In. apply Hs. now apply mem_string_In.
    - apply mem_string_not_In. intros H2. apply mem_string_not_In in H1.
      apply H1. now apply Hs. }
  rewrite <- Hm. destruct (mem_string k s1); [now apply IH |].
  f_equal. apply IH. intros x; cbn [In]. now rewrite Hs.
Qed.

Lemma distinct_app (s a b : list string) :
  distinct s (a ++ b) = (distinct s a ++ distinct (a ++ s) b)%list.
Proof.
  revert s; induction a as [| k a IH]; intros s; cbn [distinct app];
    [reflexivity |].
  destruct (mem_string k s) eqn:Hk.
  - rewrite IH. f_equal. apply distinct_seen_ext.
    intros x; cbn [In]. rewrite !in_app_iff. apply mem_string_In in Hk.
    split; [now right | intros [-> | H]; [now right | exact H]].
  - cbn [app]. f_equal. rewrite IH. f_equal. apply distinct_seen_ext.
    intros x; cbn [In]. rewrite !in_app_iff; cbn [In]. tauto.
Qed.

Lemma distinct_NoDup (seen l : list string) :
  NoDup l -> (forall x, In x l -> ~ In x seen) -> distinct seen l = l.
Proof.
  revert seen; induction l as [| k l IH]; intros seen Hnd Hs; cbn [distinct];
    [reflexivity |].
  inversion Hnd as [| ? ? Hk Hnd']; subst.
  assert (Hm : mem_string k seen = false)
    by (apply mem_string_not_In, Hs; now left).
  rewrite Hm. f_equal. apply IH; [exact Hnd' |].
  intros x Hx [<- | H]; [contradiction | apply (Hs x); [now right | exact H]].
Qed.

Lemma keys_put_order (k : string) (v : jsvalue) (l : props) :
  map fst (put k v l)
  = if mem_string k (map fst l) then map fst l else (map fst l ++ [k])%list.
Proof.
  induction l as [| [k' v'] l IH]; cbn [put map fst mem_string app];
    [reflexivity |].
  destruct (k' =? k) eqn:E; cbn [orb map fst].
  - apply String.eqb_eq in E. now subst.
  - rewrite IH. now destruct (mem_string k (map fst l)).
Qed.

Lemma filter_none {A : Type} (p : A -> bool) (l : list A) :
  (forall x, In x l -> p x = false) -> filter p l = [].
Proof.
  induction l as [| a l IH]; intros H; cbn [filter]; [reflexivity |].
  rewrite (H a (or_introl eq_refl)). apply IH. intros x Hx; apply H; now right.
Qed.

Lemma filter_all {A : Type} (p : A -> bool) (l : list A) :
  (forall x, In x l -> p x = true) -> filter p l = l.
Proof.
  induction l as [| a l IH]; intros H; cbn [filter]; [reflexivity |].
  rewrite (H a (or_introl eq_refl)). f_equal. apply IH.
  intros x Hx; apply H; now right.
Qed.

Lemma OwnPropertyKeys_insertion_order (l : props) :
  NoDup (map fst l) ->
  (forall k, In k (map fst l) -> is_array_index k = false) ->
  OwnPropertyKeys l = map fst l.
Proof.
  intros Hnd Hidx. unfold OwnPropertyKeys.
  rewrite (distinct_NoDup [] _ Hnd) by (intros x _ []).
  rewrite (filter_none _ _ Hidx), filter_all; [reflexivity |].
  intros x Hx. now rewrite (Hidx x Hx).
Qed.

Section MoreAssignments.
Variables (f : string -> string) (g : string -> jsvalue).

Lemma values_assign (xs : list string) (o : props) (k : string) (v : jsvalue) :
  assoc k (fold_left (fun obj x => put (f x) (g x) obj) xs o) = Some v ->
  assoc k o = Some v \/ exists x, In x xs /\ f x = k /\ g x = v.
Proof.
  revert o; induction xs as [| a xs IH]; intros o; cbn [fold_left];
    [now left |].
  intros H. apply IH in H as [H | [x [Hx Hfg]]].
  - destruct (string_dec (f a) k) as [E | E].
    + rewrite E, assoc_put_same in H. injection H as <-.
      right; exists a; split; [now left | now split].
    + rewrite (assoc_put_other _ _ _ _ E) in H. now left.
  - right; exists x; split; [now right | exact Hfg].
Qed.

Lemma keys_assign_order (xs : list string) (o : props) :
  map fst (fold_left (fun obj x => put (f x) (g x) obj) xs o)
  = (map fst o ++ distinct (map fst o) (map f xs))%list.
Proof.
  revert o; induction xs as [| a xs IH]; intros o;
    cbn [fold_left map distinct]; [now rewrite app_nil_r |].
  rewrite IH, keys_put_order.
  destruct (mem_string (f a) (map fst o)) eqn:Ha; [reflexivity |].
  rewrite <- app_assoc. cbn [app]. do 2 f_equal.
  apply distinct_seen_ext. intros x. rewrite in_app_iff; cbn [In]. tauto.
Qed.

End MoreAssignments.

Lemma defined_functions (l inh : props) :
  (forall i x, In (i, x) l -> exists src, x = VFun src) ->
  defined (VObj l inh) = true.
Proof.
  cbn [defined]. induction l as [| [i x] l IH]; intros H; [reflexivity |].
  destruct (H i x (or_introl eq_refl)) as [src ->]. cbn [defined andb].
  apply IH. intros i' x' Hin; apply (H i' x'); now right.
Qed.

Lemma concat_declaration (k v : string) (bs : list string) (propname : string -> string) :
  String.concat "" (entry propname 0 k v :: bs) <> "".
Proof.
  unfold entry; cbn [Nat.eqb String.concat]. destruct bs; discriminate.
Qed.

Section RenderingOrder.
Context {host : Host}.
Variables funcname propname : string -> string.

(** X6.  [toString] returns a text for every well-formed compilation: the
    tables are objects, every key of [runtime] is one of [number], [plural]
    and [select], every locale has a function in [pluralFuncs], and every
    formatter is a function. *)
Theorem toString_well_formed (this : Runtime)
    (locales li runtime ri formatters fi : props) :
  get (rt_compiler this) "locales" = VObj locales li ->
  get (rt_compiler this) "runtime" = VObj runtime ri ->
  get (rt_compiler this) "formatters" = VObj formatters fi ->
  (forall lc, In lc (OwnPropertyKeys locales) ->
              exists src, get (rt_pluralFuncs this) lc = VFun src) ->
  (forall fn, In fn (OwnPropertyKeys runtime) ->
              In fn ["number"; "plural"; "select"]) ->
  (forall i x, In (i, x) formatters -> exists src, x = VFun src) ->
  exists text, toString funcname propname this = Return text.
Proof.
  intros Hl Hr Hf Hlc Hfn Hfmt.
  pose proof (rendered_object_tables funcname this _ _ _ _ _ _ Hl Hr Hf) as Hobj.
  cbv zeta in Hobj.
  set (obj1 := fold_left
                 (fun obj lc => put (funcname lc) (get (rt_pluralFuncs this) lc) obj)
                 (OwnPropertyKeys locales) []) in Hobj.
  set (obj2 := fold_left (fun obj fn => put fn (get (instance this) fn) obj)
                 (OwnPropertyKeys runtime) obj1) in Hobj.
  assert (D2 : forall k x, assoc k obj2 = Some x -> defined x = true).
  { intros k x Hx.
    apply (values_assign (fun fn => fn) (fun fn => get (instance this) fn))
      in Hx as [Hx | [fn [Hin [_ <-]]]].
    - apply (values_assign funcname (fun lc => get (rt_pluralFuncs this) lc))
        in Hx as [Hx | [lc [Hin [_ <-]]]]; [discriminate Hx |].
      destruct (Hlc lc Hin) as [src ->]. reflexivity.
    - destruct (Hfn fn Hin) as [<- | [<- | [<- | []]]]; reflexivity. }
  set (obj := match OwnPropertyKeys formatters with
              | [] => obj2
              | _ :: _ => put "fmt" (VObj formatters fi) obj2
              end) in Hobj.
  assert (D : forall k x, assoc k obj = Some x -> defined x = true).
  { intros k x. unfold obj. destruct (OwnPropertyKeys formatters);
      [apply D2 |].
    destruct (string_dec "fmt" k) as [<- | E].
    - rewrite assoc_put_same. intros [= <-]. now apply defined_functions.
    - rewrite (assoc_put_other _ _ _ _ E). apply D2. }
  rewrite (toString_text funcname propname this obj Hobj).
  destruct (mapM_total
              (fun k => v <- _stringify propname (own_value obj k) 1 ;;
                        Return (entry propname 0 k v))
              (OwnPropertyKeys obj)) as [bs Hbs].
  - intros k Hk. apply In_OwnPropertyKeys, In_keys_assoc in Hk as [x Hx].
    unfold own_value. rewrite Hx.
    destruct (_stringify_defined propname x (D k x Hx) 1) as [t Ht].
    rewrite Ht. cbn [bind]. eexists; reflexivity.
  - rewrite Hbs. cbn [bind]. eexists; reflexivity.
Qed.

(** X7.  The declarations come in the order in which [toString] assigns
    them: the plural functions in the order of the keys of [locales], then
    the helpers in the order of the keys of [runtime], then [fmt]; a name
    assigned twice keeps its first place.  This holds when no name is an
    array index, which would be enumerated first. *)
Theorem toString_declaration_order (this : Runtime)
    (locales li runtime ri formatters fi : props) :
  get (rt_compiler this) "locales" = VObj locales li ->
  get (rt_compiler this) "runtime" = VObj runtime ri ->
  get (rt_compiler this) "formatters" = VObj formatters fi ->
  (forall lc, In lc (OwnPropertyKeys locales) ->
              is_array_index (funcname lc) = false) ->
  (forall fn, In fn (OwnPropertyKeys runtime) -> is_array_index fn = false) ->
  exists obj,
    rendered_object funcname this = Return obj
    /\ OwnPropertyKeys obj
       = distinct []
           (map funcname (OwnPropertyKeys locales)
            ++ OwnPropertyKeys runtime
            ++ match OwnPropertyKeys formatters with
               | [] => []
               | _ :: _ => ["fmt"]
               end)%list
    /\ toString funcname propname this
       = (s <- mapM (fun k => v <- _stringify propname (own_value obj k) 1 ;;
                              Return ("var " ++ k ++ " = " ++ v ++ ";" ++ nl))
                    (OwnPropertyKeys obj) ;;
          Return (String.concat "" s)).
Proof.
  intros Hl Hr Hf Hlc Hfn.
  pose proof (rendered_object_tables funcname this _ _ _ _ _ _ Hl Hr Hf) as Hobj.
  cbv zeta in Hobj.
  set (A := map funcname (OwnPropertyKeys locales)).
  set (B := OwnPropertyKeys runtime).
  set (obj1 := fold_left
                 (fun obj lc => put (funcname lc) (get (rt_pluralFuncs this) lc) obj)
                 (OwnPropertyKeys locales) []) in Hobj.
  set (obj2 := fold_left (fun obj fn => put fn (get (instance this) fn) obj)
                 (OwnPropertyKeys runtime) obj1) in Hobj.
  assert (K1 : map fst obj1 = distinct [] A).
  { unfold obj1.
    now rewrite (keys_assign_order funcname
                   (fun lc => get (rt_pluralFuncs this) lc)). }
  assert (K2 : map fst obj2 = distinct [] (A ++ B)%list).
  { unfold obj2.
    rewrite (keys_assign_order (fun fn => fn)
               (fun fn => get (instance this) fn)), map_id, K1, distinct_app.
    fold B. f_equal. apply distinct_seen_ext. intros x.
    rewrite In_distinct, in_app_iff. cbn [In]. tauto. }
  assert (N2 : NoDup (map fst obj2)) by (rewrite K2; apply NoDup_distinct).
  eexists. split; [exact Hobj |]. split; [| now apply toString_text].
  rewrite OwnPropertyKeys_insertion_order.
  - destruct (OwnPropertyKeys formatters) as [| fk fks].
    + now rewrite K2, app_nil_r.
    + rewrite keys_put_order, K2, app_assoc, (distinct_app [] (A ++ B)).
      cbn [distinct].
      assert (Hm : mem_string "fmt" (distinct [] (A ++ B)%list)
                   = mem_string "fmt" ((A ++ B) ++ [])%list).
      { destruct (mem_string "fmt" ((A ++ B) ++ [])%list) eqn:H.
        - apply mem_string_In. apply mem_string_In in H.
          rewrite In_distinct. rewrite app_nil_r in H. now split.
        - apply mem_string_not_In. apply mem_string_not_In in H.
          rewrite In_distinct. rewrite app_nil_r in H. tauto. }
      rewrite Hm. destruct (mem_string "fmt" ((A ++ B) ++ [])%list);
        [now rewrite app_nil_r | reflexivity].
  - destruct (OwnPropertyKeys formatters); [exact N2 |].
    now apply NoDup_keys_put.
  - assert (I2 : forall k, In k (map fst obj2) -> is_array_index k = false).
    { intros k. rewrite K2, In_distinct, in_app_iff. intros [[H | H] _].
      - unfold A in H. apply in_map_iff in H as [lc [<- Hin]]. now apply Hlc.
      - now apply Hfn. }
    destruct (OwnPropertyKeys formatters); [exact I2 |].
    intros k. rewrite keys_put. intros [-> | H]; [reflexivity | now apply I2].
Qed.

(** X8.  The rendering is the empty text exactly when nothing is referenced:
    no locale, no helper and no formatter. *)
Theorem toString_empty_iff (this : Runtime)
    (locales li runtime ri formatters fi : props) :
  get (rt_compiler this) "locales" = VObj locales li ->
  get (rt_compiler this) "runtime" = VObj runtime ri ->
  get (rt_compiler this) "formatters" = VObj formatters fi ->
  toString funcname propname this = Return ""
  <-> OwnPropertyKeys locales = []
      /\ OwnPropertyKeys runtime = []
      /\ OwnPropertyKeys formatters = [].
Proof.
  intros Hl Hr Hf.
  pose proof (rendered_object_tables funcname this _ _ _ _ _ _ Hl Hr Hf) as Hobj.
  cbv zeta in Hobj.
  rewrite (toString_text funcname propname this _ Hobj). split.
  - intros Ht.
    match type of Ht with
    | context [mapM _ (OwnPropertyKeys ?o)] => set (obj := o) in *
    end.
    assert (Hk : OwnPropertyKeys obj = []).
    { destruct (OwnPropertyKeys obj) as [| k ks]; [reflexivity |].
      exfalso. cbn [mapM] in Ht.
      destruct (_stringify propname (own_value obj k) 1) as [v | e];
        cbn [bind] in Ht; [| discriminate Ht].
      destruct (mapM _ ks) as [bs | e]; cbn [bind] in Ht; [| discriminate Ht].
      injection Ht as Ht. now apply concat_declaration in Ht. }
    apply OwnPropertyKeys_nil in Hk. unfold obj in Hk.
    destruct (OwnPropertyKeys formatters) as [| fk fks].
    + apply (f_equal (map fst)) in Hk.
      rewrite (keys_assign_order (fun fn => fn)
                 (fun fn => get (instance this) fn)), map_id in Hk.
      apply app_eq_nil in Hk as [Hk1 Hk2]. rewrite Hk1 in Hk2.
      rewrite (keys_assign_order funcname
                 (fun lc => get (rt_pluralFuncs this) lc)) in Hk1.
      cbn [map app] in Hk1.
      repeat split.
      * destruct (OwnPropertyKeys locales); [reflexivity | discriminate Hk1].
      * destruct (OwnPropertyKeys runtime); [reflexivity | discriminate Hk2].
    + exfalso. apply (f_equal (map fst)) in Hk.
      rewrite keys_put_order in Hk.
      destruct (mem_string "fmt" _) eqn:Hm.
      * rewrite Hk in Hm. discriminate Hm.
      * now apply app_eq_nil in Hk as [_ Hk].
  - intros (-> & -> & ->). reflexivity.
Qed.

End RenderingOrder.

(** ** The binding of [number] *)

Section InstanceFacts.
Context {host : Host}.
Variables funcname propname : string -> string.

Lemma invoke_keeps_cell (op : operation) (c : cell) :
  snd (invoke funcname propname op c) = c.
Proof. destruct op; reflexivity. Qed.

Lemma run_keeps_cell (ops : list operation) (c : cell) :
  snd (run funcname propname ops c) = c.
Proof.
  induction ops as [| op ops IH]; [reflexivity |].
  cbn [run]. unfold seq at 1.
  pose proof (invoke_keeps_cell op c) as Hop.
  destruct (invoke funcname propname op c) as [out c1]. cbn [snd] in Hop.
  subst c1. unfold seq, ret.
  destruct (run funcname propname ops c) as [outs c2]. exact IH.
Qed.

Lemma run_outcomes (ops : list operation) (c : cell) :
  fst (run funcname propname ops c)
  = map (fun op => fst (invoke funcname propname op c)) ops.
Proof.
  induction ops as [| op ops IH]; [reflexivity |].
  cbn [run map]. unfold seq at 1.
  pose proof (invoke_keeps_cell op c) as Hop.
  destruct (invoke funcname propname op c) as [out c1]. cbn [snd fst] in *.
  subst c1. unfold seq, ret.
  destruct (run funcname propname ops c) as [outs c2]. cbn [fst] in *.
  now rewrite IH.
Qed.

(** C8.  The choice between the two variants of [number] is made once, at
    construction.  The constructor leaves an instance whose field [number]
    is [Runtime.strictNumber] when the option [strictNumberSign] is set and
    [Runtime.defaultNumber] otherwise, and it assigns that field exactly
    once.  Whatever is then done with the instance, in any number and
    order of calls of [number], [plural], [select] and [toString], the field
    is assigned no more and holds the same function: every call of
    [number] is a call of the chosen variant, and the text that [toString]
    renders under the name [number], when the compilation refers to
    [number], is the text of that variant. *)
Theorem constructor_binds_number (options : Options)
    (compiler pluralFuncs : object) (ops : list operation) :
  let chosen := if ToBoolean (strictNumberSign options)
                then Runtime_strictNumber else Runtime_defaultNumber in
  let this := constructor options compiler pluralFuncs in
  let built := snd (new_Runtime options compiler pluralFuncs empty_cell) in
  let final := snd (run funcname propname ops built) in
  let outcomes := fst (run funcname propname ops built) in
  this_runtime built = Some this
  /\ rt_number this = chosen
  /\ call chosen = (if ToBoolean (strictNumberSign options)
                    then strictNumber else defaultNumber)
  /\ count_occ string_dec (assigned built) "number" = 1
  /\ assigned final = assigned built
  /\ lookup_field "number" (fields final) = Some (FNumber chosen)
  /\ Forall2
       (fun op out =>
          out = match op with
                | Op_number value name offset => call chosen value name offset
                | Op_plural value offset lcfunc data isOrdinal =>
                    Return (plural value offset lcfunc data isOrdinal)
                | Op_select value data => Return (select value data)
                | Op_toString =>
                    text <- toString funcname propname this ;;
                    Return (VStr text)
                end)
       ops outcomes
  /\ (forall locales li runtime ri formatters fi,
        get compiler "locales" = VObj locales li ->
        get compiler "runtime" = VObj runtime ri ->
        get compiler "formatters" = VObj formatters fi ->
        In "number" (OwnPropertyKeys runtime) ->
        exists obj,
          rendered_object funcname this = Return obj
          /\ own_value obj "number" = VFun (source chosen)).
Proof.
  cbv zeta.
  rewrite run_keeps_cell, run_outcomes.
  split; [reflexivity |]. split; [reflexivity |].
  split; [now destruct (ToBoolean (strictNumberSign options)) |].
  split; [reflexivity |]. split; [reflexivity |]. split; [reflexivity |].
  split.
  - induction ops as [| op ops IH]; cbn [map]; constructor; [| exact IH].
    destruct op; reflexivity.
  - intros locales li runtime ri formatters fi Hl Hr Hf Hin.
    set (this := constructor options compiler pluralFuncs).
    rewrite (rendered_object_tables funcname this locales li runtime ri
               formatters fi Hl Hr Hf).
    eexists. split; [reflexivity |]. cbv zeta.
    set (obj1 := fold_left
                   (fun obj lc =>
                      put (funcname lc) (get (rt_pluralFuncs this) lc) obj)
                   (OwnPropertyKeys locales) []).
    assert (V : assoc "number"
                  (fold_left (fun obj fn => put fn (get (instance this) fn) obj)
                             (OwnPropertyKeys runtime) obj1)
                = Some (get (instance this) "number")).
    { apply (assoc_assign_unique (fun fn => fn)
               (fun fn => get (instance this) fn)
               (OwnPropertyKeys runtime) obj1 "number" Hin).
      intros x' _ E; exact E. }
    unfold own_value.
    destruct (OwnPropertyKeys formatters).
    + rewrite V. reflexivity.
    + rewrite assoc_put_other by discriminate. rewrite V. reflexivity.
Qed.

End InstanceFacts.

(** ** The rendering and the DependencySet *)

Section DependencyFacts.
Context {host : Host}.
Variables funcname propname : string -> string.

Lemma _stringify_function (src : string) (level : nat) :
  _stringify propname (VFun src) level = Return (bundled (VFun src)).
Proof. reflexivity. Qed.








End DependencyFacts.

(** ** The text of a function *)

Lemma drop_word_app (name rest : string) :
  string_forallb is_word name = true ->
  drop_word (name ++ rest) = drop_word rest.
Proof.
  induction name as [| c name IH]; cbn [string_forallb append drop_word];
    [reflexivity |].
  intros H. apply andb_true_iff in H as [Hc Hn]. rewrite Hc. now apply IH.
Qed.

Lemma drop_word_idempotent (s : string) : drop_word (drop_word s) = drop_word s.
Proof.
  induction s as [| c s IH]; cbn [drop_word]; [reflexivity |].
  destruct (is_word c) eqn:Hc; [exact IH |]. cbn [drop_word]. now rewrite Hc.
Qed.

Lemma strip_prefix_app (p s : string) : strip_prefix p (p ++ s) = Some s.
Proof.
  induction p as [| c p IH]; cbn [strip_prefix append]; [now destruct s |].
  now rewrite Ascii.eqb_refl.
Qed.

(** X9.  Rendering takes the name out of a function: in a text that begins
    with [function], a space and a name, the name is dropped and the rest
    kept; doing so twice changes nothing more. *)
Theorem strip_function_name_anonymous (s : string) :
  (forall name rest,
     string_forallb is_word name = true ->
     drop_word rest = rest ->
     s = "function " ++ name ++ rest ->
     strip_function_name s = "function " ++ rest)
  /\ strip_function_name (strip_function_name s) = strip_function_name s.
Proof.
  split.
  - intros name rest Hname Hrest ->. unfold strip_function_name.
    rewrite strip_prefix_app, drop_word_app by exact Hname. now rewrite Hrest.
  - unfold strip_function_name.
    destruct (strip_prefix "function " s) as [r |] eqn:Hs.
    + now rewrite strip_prefix_app, drop_word_idempotent.
    + now rewrite Hs.
Qed.

Lemma string_forallb_app (p : ascii -> bool) (a b : string) :
  string_forallb p (a ++ b) = string_forallb p a && string_forallb p b.
Proof.
  induction a as [| c a IH]; cbn [string_forallb append]; [reflexivity |].
  now rewrite IH, andb_assoc.
Qed.

Lemma scan_indent_blank (l run ind : string) :
  string_forallb is_space_or_tab run = true ->
  scan_indent run l = Some ind ->
  string_forallb is_space_or_tab ind = true.
Proof.
  revert run; induction l as [| c l IH]; intros run Hrun; cbn [scan_indent];
    [discriminate |].
  destruct (is_space_or_tab c) eqn:Hc.
  - apply IH. rewrite string_forallb_app, Hrun. cbn [string_forallb].
    now rewrite Hc.
  - destruct (is_whitespace c); [now apply IH |]. now intros [= <-].
Qed.

(** The pieces of [lines_keep]: every piece but the last is a line with the
    terminator that ends it, and the last holds no terminator. *)
Definition no_terminator (s : string) : bool :=
  string_forallb (fun c => negb (is_line_terminator c)) s.

Fixpoint lines_shape (ps : list string) : Prop :=
  match ps with
  | [] => False
  | [p] => no_terminator p = true
  | p :: ps' =>
      (exists a c, p = a ++ String c "" /\ no_terminator a = true
                   /\ is_line_terminator c = true)
      /\ lines_shape ps'
  end.

Lemma lines_shape_cons (p : string) (ps : list string) :
  lines_shape (p :: ps)
  <-> match ps with
      | [] => no_terminator p = true
      | _ :: _ =>
          (exists a c, p = a ++ String c "" /\ no_terminator a = true
                       /\ is_line_terminator c = true)
          /\ lines_shape ps
      end.
Proof. destruct ps; reflexivity. Qed.

Lemma lines_keep_shape (s : string) : lines_shape (lines_keep s).
Proof.
  induction s as [| c s IH]; cbn [lines_keep]; [reflexivity |].
  destruct (is_line_terminator c) eqn:Hc.
  - apply lines_shape_cons. destruct (lines_keep s) eqn:E; [destruct IH |].
    split; [| exact IH]. exists "", c. now repeat split.
  - destruct (lines_keep s) as [| l ls] eqn:E; [destruct IH |].
    apply lines_shape_cons. apply lines_shape_cons in IH.
    destruct ls as [| l' ls'].
    + unfold no_terminator in *. cbn [string_forallb]. now rewrite Hc.
    + destruct IH as [(a & t & -> & Ha & Ht) IH]. split; [| exact IH].
      exists (String c a), t. repeat split; [| exact Ht].
      unfold no_terminator in *. cbn [string_forallb]. now rewrite Hc.
Qed.

Lemma concat_cons (p : string) (ps : list string) :
  String.concat "" (p :: ps) = p ++ String.concat "" ps.
Proof.
  cbn [String.concat]. destruct ps; [now rewrite append_empty_r | reflexivity].
Qed.

Lemma lines_keep_concat (s : string) : String.concat "" (lines_keep s) = s.
Proof.
  induction s as [| c s IH]; cbn [lines_keep]; [reflexivity |].
  destruct (is_line_terminator c).
  - rewrite concat_cons, IH. reflexivity.
  - pose proof (lines_keep_shape s) as Hs.
    destruct (lines_keep s) as [| l ls]; [destruct Hs |].
    rewrite concat_cons in *. cbn [append]. now rewrite IH.
Qed.

Lemma lines_keep_no_terminator (a : string) :
  no_terminator a = true -> lines_keep a = [a].
Proof.
  unfold no_terminator.
  induction a as [| c a IH]; cbn [string_forallb lines_keep]; [reflexivity |].
  intros H; apply andb_true_iff in H as [Hc Ha].
  apply negb_true_iff in Hc. rewrite Hc, (IH Ha). reflexivity.
Qed.

Lemma lines_keep_line (a : string) (c : ascii) (rest : string) :
  no_terminator a = true -> is_line_terminator c = true ->
  lines_keep (a ++ String c rest) = (a ++ String c "") :: lines_keep rest.
Proof.
  unfold no_terminator. intros Ha Hc.
  induction a as [| d a IH]; cbn [string_forallb append lines_keep] in *.
  - now rewrite Hc.
  - apply andb_true_iff in Ha as [Hd Ha]. apply negb_true_iff in Hd.
    rewrite Hd, (IH Ha). reflexivity.
Qed.

Lemma lines_keep_of_shape (ps : list string) :
  lines_shape ps -> lines_keep (String.concat "" ps) = ps.
Proof.
  induction ps as [| p ps IH]; [intros [] |].
  intros H. apply lines_shape_cons in H. rewrite concat_cons.
  destruct ps as [| p' ps'].
  - cbn [String.concat]. rewrite append_empty_r.
    now apply lines_keep_no_terminator.
  - destruct H as [(a & c & -> & Ha & Hc) H].
    rewrite append_assoc. cbn [append].
    rewrite (lines_keep_line _ _ _ Ha Hc). f_equal. now apply IH.
Qed.

Lemma lines_shape_indent (indent : string) (ps : list string) :
  no_terminator indent = true ->
  lines_shape ps -> lines_shape (map (fun l => indent ++ l) ps).
Proof.
  intros Hi. induction ps as [| p ps IH]; [intros [] |].
  intros H. apply lines_shape_cons in H. cbn [map]. apply lines_shape_cons.
  destruct ps as [| p' ps']; cbn [map].
  - unfold no_terminator in *. now rewrite string_forallb_app, Hi, H.
  - destruct H as [(a & c & -> & Ha & Hc) H]. split; [| now apply IH].
    exists (indent ++ a), c. repeat split; [now rewrite append_assoc | | exact Hc].
    unfold no_terminator in *. now rewrite string_forallb_app, Hi, Ha.
Qed.

(** X10.  The indentation that [_stringify] looks for in the text of a
    function, and splices into a regular expression, is made of spaces and
    tabs only; without indentation, and without a name to drop, the text of
    the function is rendered as it is. *)
Theorem function_text_indentation (s : string) :
  (forall indent, exec_indent s = Some indent ->
                  string_forallb is_space_or_tab indent = true)
  /\ (strip_function_name s = s ->
      exec_indent s = Some "" \/ exec_indent s = None ->
      function_text s = s).
Proof.
  split.
  - intros indent. unfold exec_indent. now apply scan_indent_blank.
  - intros Hname Hindent. unfold function_text. rewrite Hname.
    destruct Hindent as [-> | ->]; [| reflexivity].
    unfold unindent. cbn [strip_prefix].
    rewrite <- (lines_keep_concat s) at 2. f_equal.
    induction (lines_keep s) as [| l ls IH]; cbn [map]; [reflexivity |].
    now rewrite IH.
Qed.

Lemma blank_no_terminator (s : string) :
  string_forallb is_space_or_tab s = true -> no_terminator s = true.
Proof.
  unfold no_terminator.
  induction s as [| c r IH]; cbn [string_forallb]; [reflexivity |].
  intros H. apply andb_true_iff in H as [Hc Hr]. rewrite (IH Hr), andb_true_r.
  unfold is_space_or_tab, is_line_terminator in *. cbv zeta in *.
  apply orb_true_iff in Hc as [Hc | Hc]; apply Nat.eqb_eq in Hc;
    now rewrite Hc.
Qed.

(** X11.  Taking from every line the indentation that [_stringify] has put
    before every line gives the text back, for an indentation made of spaces
    and tabs, the only kind that [_stringify] builds or captures. *)
Theorem unindent_indent_lines (indent s : string) :
  string_forallb is_space_or_tab indent = true ->
  unindent indent (indent_lines indent s) = s.
Proof.
  intros Hb. pose proof (blank_no_terminator indent Hb) as Hi.
  unfold unindent, indent_lines.
  rewrite lines_keep_of_shape
    by (apply lines_shape_indent; [exact Hi | apply lines_keep_shape]).
  rewrite map_map. rewrite <- (lines_keep_concat s) at 2. f_equal.
  induction (lines_keep s) as [| l ls IH]; cbn [map]; [reflexivity |].
  now rewrite strip_prefix_app, IH.
Qed.

(** * Properties of the command line *)

(** ** Extensions *)

Lemma trim_end_idempotent (s : string) : trim_end (trim_end s) = trim_end s.
Proof.
  induction s as [| c s IH]; cbn [trim_end]; [reflexivity |].
  destruct (trim_end s) as [| d r] eqn:E.
  - destruct (is_whitespace c) eqn:Hc; cbn [trim_end]; [reflexivity |].
    now rewrite Hc.
  - cbn [trim_end]. cbn [trim_end] in IH.
    destruct (trim_end r) as [| d' r'] eqn:E'.
    + destruct (is_whitespace d); [discriminate IH |]. now rewrite IH.
    + now rewrite IH.
Qed.

Lemma trim_end_tail (c : ascii) (s : string) :
  trim_end (String c s) = String c s -> trim_end s = s.
Proof.
  cbn [trim_end]. destruct (trim_end s) as [| d r] eqn:E.
  - destruct (is_whitespace c); [discriminate |]. now intros [= <-].
  - now intros [= <-].
Qed.

Lemma trim_end_after_first_dot (s r : string) :
  trim_end s = s -> after_first_dot s = Some r -> trim_end r = r.
Proof.
  induction s as [| c s IH]; cbn [after_first_dot]; [discriminate |].
  intros Hs. pose proof (trim_end_tail _ _ Hs) as Ht.
  destruct (Ascii.eqb c "."%char); [now intros [= <-] | now apply IH].
Qed.

Lemma trim_end_dot (r : string) :
  trim_end r = r -> trim_end ("." ++ r) = "." ++ r.
Proof.
  intros Hr. cbn [append trim_end]. rewrite Hr. now destruct r.
Qed.

Lemma trim_clean (s : string) : trim_end (trim s) = trim s.
Proof. apply trim_end_idempotent. Qed.

Lemma dot_extension_fixed (t : string) :
  trim_end t = t ->
  trim (dot_extension t) = dot_extension t
  /\ dot_extension (dot_extension t) = dot_extension t.
Proof.
  intros Ht. unfold dot_extension.
  assert (Hr : trim_end match after_first_dot t with
                        | Some r => r
                        | None => t
                        end
               = match after_first_dot t with Some r => r | None => t end).
  { destruct (after_first_dot t) as [r |] eqn:E; [| exact Ht].
    now apply (trim_end_after_first_dot t). }
  split.
  - unfold trim. cbn [append trim_start is_whitespace].
    change (String "." ?x) with ("." ++ x). now apply trim_end_dot.
  - reflexivity.
Qed.

(** X12.  Every extension that [getOptions] returns begins with a dot, and
    normalising is idempotent: the list it returns, given again, comes back
    unchanged. *)
Theorem getOptions_extensions_normal (extensions : strings_option)
    (l : list string) :
  getOptions_extensions extensions = Return l ->
  (forall ext, In ext l -> exists rest, ext = "." ++ rest)
  /\ l <> []
  /\ getOptions_extensions (ManyStrings l) = Return l.
Proof.
  assert (Hdefault : forall ext, In ext [".json"; ".properties"] ->
                                 exists rest, ext = "." ++ rest).
  { intros ext [<- | [<- | []]]; eexists; reflexivity. }
  destruct extensions as [| s | [| e es]]; cbn [getOptions_extensions].
  - intros [= <-]. repeat split; [exact Hdefault | discriminate].
  - destruct (s =? ""); [| discriminate].
    intros [= <-]. repeat split; [exact Hdefault | discriminate].
  - intros [= <-]. repeat split; [exact Hdefault | discriminate].
  - intros [= <-]. split; [| split; [discriminate |]].
    + intros ext Hin.
      change (In ext (map (fun ext => dot_extension (trim ext)) (e :: es)))
        in Hin.
      apply in_map_iff in Hin as [x [<- _]]. eexists; reflexivity.
    + cbn [map]. do 2 f_equal.
      * destruct (dot_extension_fixed (trim e) (trim_clean e)) as [-> ->].
        reflexivity.
      * rewrite map_map. apply map_ext. intros x.
        destruct (dot_extension_fixed (trim x) (trim_clean x)) as [-> ->].
        reflexivity.
Qed.

(** ** Locales *)

Definition no_separator (s : string) : bool :=
  string_forallb (fun c => negb (is_locale_separator c)) s.

Fixpoint remove_separators (s : string) : string :=
  match s with
  | "" => ""
  | String c r => if is_locale_separator c then remove_separators r
                  else String c (remove_separators r)
  end.

Lemma split_from_nonempty (after : bool) (lc : string) :
  split_from after lc <> [].
Proof.
  revert after; induction lc as [| c lc IH]; intros after; cbn [split_from];
    [discriminate |].
  destruct (is_locale_separator c).
  - destruct after; [apply IH | discriminate].
  - destruct (split_from false lc); discriminate.
Qed.

Lemma split_from_parts (after : bool) (lc : string) :
  Forall (fun part => no_separator part = true) (split_from after lc)
  /\ String.concat "" (split_from after lc) = remove_separators lc.
Proof.
  revert after; induction lc as [| c lc IH]; intros after;
    cbn [split_from remove_separators].
  - split; [now repeat constructor | reflexivity].
  - destruct (is_locale_separator c) eqn:Hc.
    + destruct after; [apply IH |].
      destruct (IH true) as [H1 H2]. split; [now constructor |].
      now rewrite concat_cons.
    + destruct (IH false) as [H1 H2].
      pose proof (split_from_nonempty false lc) as Hne.
      destruct (split_from false lc) as [| part parts]; [contradiction |].
      inversion H1 as [| ? ? Hp Hps]; subst. split.
      * constructor; [| exact Hps].
        unfold no_separator in *. cbn [string_forallb]. now rewrite Hc.
      * rewrite concat_cons in *. cbn [append]. now rewrite H2.
Qed.

Lemma split_from_no_separator (after : bool) (x rest : string) :
  no_separator x = true -> x <> "" ->
  split_from after (x ++ rest)
  = match split_from false rest with
    | part :: parts => (x ++ part) :: parts
    | [] => [x]
    end.
Proof.
  unfold no_separator. revert after.
  induction x as [| c x IH]; intros after Hx Hne; [contradiction |].
  cbn [string_forallb] in Hx. apply andb_true_iff in Hx as [Hc Hx].
  apply negb_true_iff in Hc. cbn [append split_from]. rewrite Hc.
  destruct x as [| d x'].
  - cbn [append]. destruct (split_from false rest); reflexivity.
  - rewrite (IH false Hx) by discriminate.
    destruct (split_from false rest); reflexivity.
Qed.

(** X13.  The parts into which [getOptions] splits the locales hold neither
    space nor comma, there is at least one part, and together they are the
    characters of the option without its spaces and commas. *)
Theorem getOptions_locale_parts (locale : strings_option)
    (parts : list string) :
  getOptions_locale locale = Some parts ->
  parts <> []
  /\ Forall (fun part => no_separator part = true) parts
  /\ exists lc,
       (locale = OneString lc \/ exists l, locale = ManyStrings l
                                           /\ lc = String.concat "," l)
       /\ lc <> ""
       /\ String.concat "" parts = remove_separators lc.
Proof.
  unfold getOptions_locale.
  destruct locale as [| s | l]; [discriminate | |].
  - destruct (String.eqb_spec s "") as [| Hs]; [discriminate |].
    intros [= <-]. split; [apply split_from_nonempty |].
    destruct (split_from_parts false s) as [H1 H2]. split; [exact H1 |].
    exists s. repeat split; [now left | exact Hs | exact H2].
  - destruct (String.eqb_spec (String.concat "," l) "") as [| Hs];
      [discriminate |].
    intros [= <-]. split; [apply split_from_nonempty |].
    destruct (split_from_parts false (String.concat "," l)) as [H1 H2].
    split; [exact H1 |].
    exists (String.concat "," l). repeat split; [| exact Hs | exact H2].
    right. now exists l.
Qed.

Lemma split_locales_join (l : list string) :
  l <> [] ->
  Forall (fun x => no_separator x = true /\ x <> "") l ->
  split_locales (String.concat "," l) = l.
Proof.
  unfold split_locales. induction l as [| x l IH]; [contradiction |].
  intros _ H. inversion H as [| ? ? [Hx Hne] Hl]; subst.
  destruct l as [| y l'].
  - cbn [String.concat]. rewrite <- (append_empty_r x) at 1.
    rewrite (split_from_no_separator _ _ _ Hx Hne). cbn [split_from].
    now rewrite append_empty_r.
  - change (String.concat "," (x :: y :: l'))
      with (x ++ "," ++ String.concat "," (y :: l')).
    rewrite (split_from_no_separator _ _ _ Hx Hne).
    cbn [append split_from is_locale_separator Ascii.eqb Bool.eqb orb].
    rewrite append_empty_r.
    assert (Hy : split_from true (String.concat "," (y :: l'))
                 = split_from false (String.concat "," (y :: l'))).
    { inversion Hl as [| ? ? [Hy Hyne] _]; subst.
      assert (E : String.concat "," (y :: l')
                  = y ++ match l' with
                         | [] => ""
                         | _ :: _ => "," ++ String.concat "," l'
                         end)
        by (cbn [String.concat]; destruct l';
            [now rewrite append_empty_r | reflexivity]).
      rewrite E.
      now rewrite !(split_from_no_separator _ _ _ Hy Hyne). }
    rewrite Hy, IH; [reflexivity | discriminate | exact Hl].
Qed.

(** X14.  Locales given as an array come back as they are, when the array
    is not empty and each name is a non-empty text without space or
    comma. *)
Theorem getOptions_locale_array (l : list string) :
  l <> [] ->
  Forall (fun x => no_separator x = true /\ x <> "") l ->
  getOptions_locale (ManyStrings l) = Some l.
Proof.
  intros Hne Hl. unfold getOptions_locale.
  destruct (String.eqb_spec (String.concat "," l) "") as [E | _].
  - exfalso. destruct l as [| x l']; [contradiction |].
    inversion Hl as [| ? ? [_ Hx] _]; subst.
    cbn [String.concat] in E. destruct l'; [contradiction |].
    destruct x; [contradiction | discriminate E].
  - now rewrite split_locales_join.
Qed.

(** ** The loop that ends readInput *)

Lemma unwrap_input_VObj (own inh : props) :
  unwrap_input (VObj own inh)
  = match OwnPropertyKeys own with
    | [k] => unwrap_input (own_value own k)
    | _ => VObj own inh
    end.
Proof.
  cbn [unwrap_input]. destruct (OwnPropertyKeys own) as [| k [| k' ks]];
    try reflexivity.
  unfold own_value. induction own as [| [i x] own IH]; cbn [assoc];
    [reflexivity |].
  destruct (i =? k); [reflexivity | exact IH].
Qed.

(** X15.  What [readInput] returns is never an object with exactly one
    key: such wrappers are taken away, however deep they nest, and a value
    without wrapper is returned as it is. *)
Theorem unwrap_input_no_wrapper (input : jsvalue) :
  match unwrap_input input with
  | VObj own _ => List.length (OwnPropertyKeys own) <> 1
  | _ => True
  end
  /\ unwrap_input (unwrap_input input) = unwrap_input input.
Proof.
  induction input as [| | b | x | s | src | own inh IH]
    using jsvalue_nested_ind; try (split; [exact I | reflexivity]).
  rewrite unwrap_input_VObj.
  destruct (OwnPropertyKeys own) as [| k [| k' ks]] eqn:E.
  - split; [now rewrite E | now rewrite unwrap_input_VObj, E].
  - assert (Hk : In k (OwnPropertyKeys own)) by (rewrite E; now left).
    apply In_OwnPropertyKeys, In_keys_assoc in Hk as [x Hx].
    unfold own_value; rewrite Hx. apply assoc_In in Hx.
    rewrite Forall_forall in IH. exact (IH (k, x) Hx).
  - split; [now rewrite E | now rewrite unwrap_input_VObj, E].
Qed.

(** ** simplify *)

Lemma OwnPropertyKeys_singleton (k : string) (v : jsvalue) :
  OwnPropertyKeys [(k, v)] = [k].
Proof.
  unfold OwnPropertyKeys. cbn [map fst distinct mem_string filter].
  now destruct (is_array_index k).
Qed.

Lemma OwnPropertyKeys_same_keys (l l' : props) :
  map fst l = map fst l' -> OwnPropertyKeys l = OwnPropertyKeys l'.
Proof. unfold OwnPropertyKeys. now intros ->. Qed.

Lemma assoc_map_values (h : jsvalue -> jsvalue) (k : string) (l : props) :
  assoc k (map (fun kx => (fst kx, h (snd kx))) l)
  = option_map h (assoc k l).
Proof.
  induction l as [| [k' x] l IH]; cbn [map assoc fst snd]; [reflexivity |].
  destruct (k' =? k); [reflexivity | exact IH].
Qed.

Lemma assoc_NoDup_In (k : string) (x : jsvalue) (l : props) :
  NoDup (map fst l) -> In (k, x) l -> assoc k l = Some x.
Proof.
  induction l as [| [k' x'] l IH]; cbn [map fst assoc]; intros Hnd Hin;
    [destruct Hin |].
  inversion Hnd as [| ? ? Hk Hnd']; subst.
  destruct Hin as [[= -> ->] | Hin]; [now rewrite String.eqb_refl |].
  destruct (String.eqb_spec k' k) as [-> | _]; [| now apply IH].
  exfalso. apply Hk. apply in_map_iff. now exists (k, x).
Qed.

Lemma put_map (a : string) (y : jsvalue) (l : props) :
  NoDup (map fst l) -> In a (map fst l) ->
  put a y l = map (fun kx => if fst kx =? a then (a, y) else kx) l.
Proof.
  induction l as [| [k x] l IH]; cbn [map fst put]; intros Hnd Hin;
    [destruct Hin |].
  inversion Hnd as [| ? ? Hk Hnd']; subst.
  destruct (String.eqb_spec k a) as [-> | Hne].
  - f_equal. rewrite <- (map_id l) at 1. apply map_ext_in.
    intros [k' x'] Hin'. cbn [fst].
    destruct (String.eqb_spec k' a) as [-> | _]; [| reflexivity].
    exfalso. apply Hk. apply in_map_iff. now exists (a, x').
  - f_equal. apply IH; [exact Hnd' |].
    destruct Hin as [E | Hin]; [contradiction | exact Hin].
Qed.

Lemma keys_map_values (F : string * jsvalue -> jsvalue) (l : props) :
  map fst (map (fun kx => (fst kx, F kx)) l) = map fst l.
Proof. rewrite map_map. now apply map_ext. Qed.

Lemma collapse_fold (inh : props) (key : string) (ks : list string) (l : props) :
  NoDup ks -> (forall k, In k ks -> In k (map fst l)) -> NoDup (map fst l) ->
  fold_left (fun o k => put k (member (member (VObj o inh) k) key) o) ks l
  = map (fun kx => (fst kx, if mem_string (fst kx) ks
                            then member (snd kx) key else snd kx)) l.
Proof.
  revert l; induction ks as [| a ks IH]; intros l Hks Hin Hnd;
    cbn [fold_left].
  - rewrite <- (map_id l) at 1. apply map_ext. now intros [k x].
  - inversion Hks as [| ? ? Ha Hks']; subst.
    assert (Hal : In a (map fst l)) by (apply Hin; now left).
    destruct (proj1 (In_keys_assoc a l) Hal) as [xa Hxa].
    assert (Hm : member (VObj l inh) a = xa)
      by (cbn [member]; now apply get_own).
    rewrite Hm, (put_map _ _ _ Hnd Hal).
    set (l1 := map (fun kx => if fst kx =? a then (a, member xa key) else kx) l).
    assert (K1 : map fst l1 = map fst l).
    { unfold l1. rewrite map_map. apply map_ext. intros [k x]; cbn [fst].
      destruct (String.eqb_spec k a) as [-> | _]; reflexivity. }
    rewrite IH; [| exact Hks' | | now rewrite K1].
    + unfold l1. rewrite map_map. apply map_ext_in. intros [k x] Hkx.
      cbn [fst snd mem_string].
      destruct (String.eqb_spec k a) as [-> | Hne]; cbn [fst snd].
      * rewrite String.eqb_refl. cbn [orb].
        apply mem_string_not_In in Ha. rewrite Ha.
        rewrite (assoc_NoDup_In _ _ _ Hnd Hkx) in Hxa. now injection Hxa as ->.
      * assert (E : (a =? k) = false)
          by (apply String.eqb_neq; congruence).
        now rewrite E.
    + intros k Hk. rewrite K1. apply Hin. now right.
Qed.

Lemma all_single_constant (k0 : string) (keys : list string) :
  all_single (Some k0) [map (fun _ => [k0]) keys] = true.
Proof.
  unfold all_single. cbn [forallb]. rewrite andb_true_r.
  induction keys as [| k keys IH]; cbn [map forallb]; [reflexivity |].
  now rewrite String.eqb_refl, IH.
Qed.

Lemma first_key_constant (k0 : string) (keys : list string) :
  keys <> [] -> first_key [map (fun _ => [k0]) keys] = Return (Some k0).
Proof. destruct keys; [contradiction | reflexivity]. Qed.

(** X16.  [simplify] leaves a value that is no object as it is, and an
    object whose first property is no object as well: such a tree has no
    level to take away. *)
Theorem simplify_keeps_flat (rounds : nat) (input : jsvalue) :
  typeof_object input = false
  \/ (exists own inh k ks,
        input = VObj own inh /\ OwnPropertyKeys own = k :: ks
        /\ typeof_object (member input k) = false) ->
  simplify (S rounds) input = Some (Return input).
Proof.
  unfold simplify. cbn [simplify_from]. unfold simplify_round.
  intros [H | (own & inh & k & ks & -> & Hk & H)].
  - destruct input; try discriminate H; reflexivity.
  - cbn [getAllObjects typeof_object negb bind mapM].
    unfold keyset. cbn [Object_keys bind]. rewrite Hk. cbn [mapM].
    rewrite H. reflexivity.
Qed.

(** X17.  On the empty object and on null [simplify] fails: the TypeError
    raised when it reads the first key is not the error it catches. *)
Theorem simplify_empty_throws (rounds : nat) (input : jsvalue) :
  input = VNull
  \/ (exists own inh, input = VObj own inh /\ OwnPropertyKeys own = []) ->
  simplify (S rounds) input = Some (Throw TypeError).
Proof.
  unfold simplify. cbn [simplify_from]. unfold simplify_round.
  intros [-> | (own & inh & -> & Hk)]; [reflexivity |].
  cbn [getAllObjects typeof_object negb bind mapM].
  unfold keyset. cbn [Object_keys bind]. rewrite Hk. reflexivity.
Qed.

(** X18.  [simplify] takes away a level of keys that is the same
    everywhere: when every property of [input] is an object with the one key
    [key0], whose value is no object, [input] becomes the object that maps
    each of its keys to that value. *)
Theorem simplify_collapses_level (rounds : nat) (own inh : props)
    (key0 : string) :
  own <> [] ->
  NoDup (map fst own) ->
  (forall k x, In (k, x) own ->
     exists v xinh, x = VObj [(key0, v)] xinh /\ typeof_object v = false) ->
  simplify (S (S rounds)) (VObj own inh)
  = Some (Return
            (VObj (map (fun kx => (fst kx, member (snd kx) key0)) own) inh)).
Proof.
  intros Hne Hnd Hall.
  assert (Hkeys : exists k1 ks, OwnPropertyKeys own = k1 :: ks).
  { destruct (OwnPropertyKeys own) as [| k1 ks] eqn:E; [| eauto].
    apply OwnPropertyKeys_nil in E. contradiction. }
  destruct Hkeys as (k1 & ks & Hk).
  assert (Hchild : forall k, In k (OwnPropertyKeys own) ->
            exists v xinh, member (VObj own inh) k = VObj [(key0, v)] xinh
                           /\ typeof_object v = false).
  { intros k Hin. apply In_OwnPropertyKeys, In_keys_assoc in Hin as [x Hx].
    destruct (Hall k x (assoc_In _ _ _ Hx)) as (v & xinh & -> & Hv).
    exists v, xinh. split; [| exact Hv]. cbn [member]. now apply get_own. }
  set (own' := map (fun kx => (fst kx, member (snd kx) key0)) own).
  assert (Hround : simplify_round (VObj own inh) 0
                   = Return (VObj own' inh, 0)).
  { unfold simplify_round.
    cbn [getAllObjects typeof_object negb bind mapM].
    unfold keyset. cbn [Object_keys bind].
    rewrite (mapM_Return _ (fun _ => [key0])).
    - cbn [bind]. rewrite first_key_constant by (rewrite Hk; discriminate).
      cbn [bind]. rewrite all_single_constant.
      cbn [update_at collapse key_name]. do 3 f_equal.
      rewrite collapse_fold;
        [| apply NoDup_OwnPropertyKeys
         | intros k; apply In_OwnPropertyKeys | exact Hnd].
      apply map_ext_in. intros [k x] Hin. cbn [fst snd].
      assert (Hm : mem_string k (OwnPropertyKeys own) = true).
      { apply mem_string_In, In_OwnPropertyKeys, in_map_iff.
        now exists (k, x). }
      now rewrite Hm.
    - intros k Hin. destruct (Hchild k Hin) as (v & xinh & -> & _).
      cbn [typeof_object negb Object_keys].
      now rewrite OwnPropertyKeys_singleton. }
  unfold simplify. cbn [simplify_from]. rewrite Hround.
  unfold simplify_round.
  cbn [getAllObjects typeof_object negb bind mapM].
  unfold keyset. cbn [Object_keys bind].
  rewrite (OwnPropertyKeys_same_keys own' own)
    by (unfold own'; apply keys_map_values).
  rewrite Hk. cbn [mapM].
  assert (Hv : typeof_object (member (VObj own' inh) k1) = false).
  { assert (Hin : In k1 (OwnPropertyKeys own)) by (rewrite Hk; now left).
    pose proof Hin as Hin'.
    apply In_OwnPropertyKeys, In_keys_assoc in Hin' as [x Hx].
    destruct (Hall k1 x (assoc_In _ _ _ Hx)) as (v & xinh & -> & Hv).
    cbn [member]. unfold own'.
    rewrite (get_own _ _ (member (VObj [(key0, v)] xinh) key0)).
    - cbn [member]. unfold get; cbn -[String.eqb].
      now rewrite String.eqb_refl.
    - cbn -[String.eqb assoc].
      rewrite (assoc_map_values (fun x => member x key0)), Hx. reflexivity. }
  rewrite Hv. reflexivity.
Qed.

Lemma Object_keys_throws (v : jsvalue) (e : exception) :
  Object_keys v = Throw e -> e = TypeError.
Proof. destruct v; cbn [Object_keys]; try discriminate; now intros [= <-]. Qed.

Lemma getAllObjects_throws (level : nat) :
  forall obj e, getAllObjects obj level = Throw e ->
                e = TypeError \/ e = non_object_value.
Proof.
  induction level as [| level IH]; intros obj e.
  - cbn [getAllObjects]. destruct (negb (typeof_object obj));
      [intros [= <-]; now right | discriminate].
  - cbn [getAllObjects]. destruct (negb (typeof_object obj));
      [intros [= <-]; now right |].
    destruct (Object_keys obj) as [keys | e'] eqn:Hk; cbn [bind].
    + destruct level as [| level']; [discriminate |].
      destruct (mapM _ keys) as [lists | e'] eqn:Hm; cbn [bind];
        [discriminate |].
      intros [= ->]. apply mapM_Throw_inv in Hm as [k [_ Hk']].
      now apply IH in Hk'.
    + destruct level; cbn [bind]; intros [= <-]; left;
        now apply (Object_keys_throws obj).
Qed.

Lemma keyset_throws (obj : jsvalue) (e : exception) :
  keyset obj = Throw e -> e = TypeError \/ e = non_object_value.
Proof.
  unfold keyset. destruct (Object_keys obj) as [keys | e'] eqn:Hk; cbn [bind].
  - intros Hm. apply mapM_Throw_inv in Hm as [k [_ Hk']].
    destruct (negb (typeof_object (member obj k)));
      [injection Hk' as <-; now right |].
    left. now apply (Object_keys_throws (member obj k)).
  - intros [= <-]. left. now apply (Object_keys_throws obj).
Qed.

Lemma simplify_round_throws (input : jsvalue) (lvl : nat) (e : exception) :
  simplify_round input lvl = Throw e -> e = TypeError \/ e = non_object_value.
Proof.
  unfold simplify_round.
  destruct (getAllObjects input lvl) as [objects | e'] eqn:Ho; cbn [bind];
    [| intros [= <-]; now apply (getAllObjects_throws lvl input)].
  destruct (mapM keyset objects) as [keysets | e'] eqn:Hm; cbn [bind].
  - destruct (first_key keysets) as [key0 | e'] eqn:Hf; cbn [bind].
    + destruct (all_single key0 keysets); discriminate.
    + intros [= <-]. left.
      destruct keysets as [| [| ks keyset'] keysets']; cbn [first_key] in Hf;
        try discriminate Hf; now injection Hf as <-.
  - intros [= <-]. apply mapM_Throw_inv in Hm as [obj [_ Hobj]].
    now apply keyset_throws in Hobj.
Qed.

(** X19.  The only exception that leaves [simplify] is a TypeError: the
    error [non-object value], which ends the loop, is always caught. *)
Theorem simplify_throws_TypeError (rounds : nat) (input : jsvalue)
    (e : exception) :
  simplify rounds input = Some (Throw e) -> e = TypeError.
Proof.
  unfold simplify. generalize 0 as lvl. revert input.
  induction rounds as [| rounds IH]; intros input lvl; cbn [simplify_from];
    [discriminate |].
  destruct (simplify_round input lvl) as [[input' lvl'] | e'] eqn:Hr.
  - apply IH.
  - destruct (simplify_round_throws _ _ _ Hr) as [-> | ->].
    + now intros [= <-].
    + unfold non_object_value. rewrite String.eqb_refl. discriminate.
Qed.

(** The children of a value, as [getAllObjects] lists them at level 1. *)
Definition children (obj : jsvalue) : result (list jsvalue) :=
  keys <- Object_keys obj ;; Return (map (member obj) keys).

Lemma mapM_app {A B : Type} (f : A -> result B) (l1 l2 : list A)
    (r1 r2 : list B) :
  mapM f l1 = Return r1 -> mapM f l2 = Return r2 ->
  mapM f (l1 ++ l2) = Return (r1 ++ r2)%list.
Proof.
  revert r1; induction l1 as [| a l1 IH]; intros r1; cbn [mapM app].
  - now intros [= <-].
  - destruct (f a) as [b | e]; cbn [bind]; [| discriminate].
    destruct (mapM f l1) as [bs | e] eqn:E; cbn [bind]; [| discriminate].
    intros [= <-] H2. rewrite (IH bs eq_refl H2). reflexivity.
Qed.

Lemma mapM_concat {A B : Type} (f : A -> result B) (ls : list (list A))
    (rs : list (list B)) :
  Forall2 (fun l r => mapM f l = Return r) ls rs ->
  mapM f (List.concat ls) = Return (List.concat rs).
Proof.
  induction 1 as [| l r ls rs Hl _ IH]; [reflexivity |].
  cbn [List.concat]. now apply mapM_app.
Qed.

Lemma concat_concat {A : Type} (lss : list (list (list A))) :
  List.concat (map (@List.concat A) lss) = List.concat (List.concat lss).
Proof.
  induction lss as [| ls lss IH]; cbn [map List.concat]; [reflexivity |].
  now rewrite concat_app, IH.
Qed.

(** X20.  [getAllObjects] descends level by level: when it returns the
    objects of level [n + 1], it also returns those of level [n], and the
    former are the children of the latter, in order. *)
Theorem getAllObjects_next_level (n : nat) :
  forall obj below,
    getAllObjects obj (S n) = Return below ->
    exists objects lists,
      getAllObjects obj n = Return objects
      /\ mapM children objects = Return lists
      /\ below = List.concat lists.
Proof.
  induction n as [| n IH]; intros obj below.
  - cbn [getAllObjects]. destruct (negb (typeof_object obj)); [discriminate |].
    destruct (Object_keys obj) as [keys |] eqn:Hk; cbn [bind]; [| discriminate].
    intros [= <-]. exists [obj], [map (member obj) keys].
    split; [reflexivity |]. split.
    + cbn [mapM]. unfold children. rewrite Hk. reflexivity.
    + cbn [List.concat]. now rewrite app_nil_r.
  - change (getAllObjects obj (S (S n)))
      with (if negb (typeof_object obj) then Throw non_object_value
            else keys <- Object_keys obj ;;
                 lists <- mapM (fun k => getAllObjects (member obj k) (S n))
                               keys ;;
                 Return (List.concat lists)).
    destruct (negb (typeof_object obj)) eqn:Ht; [discriminate |].
    destruct (Object_keys obj) as [keys |] eqn:Hk; cbn [bind]; [| discriminate].
    destruct (mapM _ keys) as [belows |] eqn:Hm; cbn [bind]; [| discriminate].
    intros [= <-].
    assert (Hall : exists objs listss,
              Forall2 (fun k o => getAllObjects (member obj k) n = Return o)
                      keys objs
              /\ Forall2 (fun o ls => mapM children o = Return ls) objs listss
              /\ belows = map (@List.concat jsvalue) listss).
    { clear Hk. revert belows Hm.
      induction keys as [| k keys IHk]; intros belows; cbn [mapM].
      - intros [= <-]. exists [], []. repeat split; constructor.
      - destruct (getAllObjects (member obj k) (S n)) as [b |] eqn:Hb;
          cbn [bind]; [| discriminate].
        destruct (mapM _ keys) as [bs |] eqn:Hbs; cbn [bind]; [| discriminate].
        intros [= <-].
        destruct (IH _ _ Hb) as (o & ls & Ho & Hls & ->).
        destruct (IHk bs eq_refl) as (objs & listss & H1 & H2 & ->).
        exists (o :: objs), (ls :: listss).
        repeat split; [now constructor | now constructor]. }
    destruct Hall as (objs & listss & H1 & H2 & ->).
    assert (Hlevel : getAllObjects obj (S n)
                     = Return (List.concat objs)).
    { destruct n as [| n'].
      - cbn [getAllObjects]. rewrite Ht, Hk. cbn [bind]. f_equal.
        clear Hk Hm H2. induction H1 as [| k o keys objs Ho _ IH1];
          [reflexivity |].
        cbn [getAllObjects] in Ho.
        destruct (negb (typeof_object (member obj k))); [discriminate Ho |].
        injection Ho as <-. cbn [map List.concat app]. now rewrite IH1.
      - change (getAllObjects obj (S (S n')))
          with (if negb (typeof_object obj) then Throw non_object_value
                else keys <- Object_keys obj ;;
                     lists <- mapM (fun k =>
                                      getAllObjects (member obj k) (S n'))
                                   keys ;;
                     Return (List.concat lists)).
        rewrite Ht, Hk. cbn [bind].
        assert (Hm' : mapM (fun k => getAllObjects (member obj k) (S n')) keys
                      = Return objs).
        { clear Hk Hm H2. induction H1 as [| k o keys objs Ho _ IH1];
            [reflexivity |].
          cbn [mapM]. now rewrite Ho, IH1. }
        now rewrite Hm'. }
    exists (List.concat objs), (List.concat listss).
    split; [exact Hlevel |]. split.
    + now apply mapM_concat.
    + apply concat_concat.
Qed.

(** ** The loop of simplify ends *)


Fixpoint size (v : jsvalue) : nat :=
  match v with
  | VObj own _ =>
      S ((fix sum (l : props) : nat :=
            match l with
            | [] => 0
            | (_, x) :: r => size x + sum r
            end) own)
  | _ => 1
  end.

Fixpoint height (v : jsvalue) : nat :=
  match v with
  | VObj own _ =>
      S ((fix top (l : props) : nat :=
            match l with
            | [] => 0
            | (_, x) :: r => Nat.max (height x) (top r)
            end) own)
  | _ => 0
  end.

Definition measure_sum (m : jsvalue -> nat) (l : props) : nat :=
  list_sum (map (fun e => m (snd e)) l).

Lemma size_VObj (own inh : props) :
  size (VObj own inh) = S (measure_sum size own).
Proof.
  cbn [size]. f_equal. unfold measure_sum, list_sum.
  induction own as [| [k x] own IH]; cbn [map list_sum fold_right snd]; [reflexivity |].
  now rewrite IH.
Qed.

Lemma size_entry (k : string) (x : jsvalue) (own inh : props) :
  In (k, x) own -> size x < size (VObj own inh).
Proof.
  rewrite size_VObj. unfold measure_sum, list_sum.
  induction own as [| [k' x'] own IH]; intros Hin; [destruct Hin |].
  cbn [map list_sum fold_right snd]. destruct Hin as [[= -> ->] | Hin]; [lia |].
  specialize (IH Hin). lia.
Qed.

Lemma height_entry (k : string) (x : jsvalue) (own inh : props) :
  In (k, x) own -> height x < height (VObj own inh).
Proof.
  cbn [height]. induction own as [| [k' x'] own IH]; intros Hin;
    [destruct Hin |].
  destruct Hin as [[= -> ->] | Hin]; [lia |].
  specialize (IH Hin). lia.
Qed.

Lemma put_measure (m : jsvalue -> nat) (a : string) (x y : jsvalue)
    (l : props) :
  assoc a l = Some x ->
  measure_sum m (put a y l) + m x = measure_sum m l + m y.
Proof.
  unfold measure_sum, list_sum.
  induction l as [| [k v] l IH]; cbn [assoc put]; [discriminate |].
  destruct (k =? a); cbn [map list_sum fold_right snd].
  - intros [= ->]. lia.
  - intros H. specialize (IH H). lia.
Qed.

Section FoldPut.
Variables (m : jsvalue -> nat) (G : props -> string -> jsvalue).

Lemma fold_put_le (ks : list string) (l : props) :
  NoDup ks ->
  (forall k o, In k ks -> assoc k o = assoc k l ->
               exists x, assoc k l = Some x /\ m (G o k) <= m x) ->
  measure_sum m (fold_left (fun o k => put k (G o k) o) ks l)
  <= measure_sum m l.
Proof.
  revert l; induction ks as [| a ks IH]; intros l Hnd H; cbn [fold_left];
    [lia |].
  inversion Hnd as [| ? ? Ha Hnd']; subst.
  destruct (H a l (or_introl eq_refl) eq_refl) as [x [Hx Hm]].
  pose proof (put_measure m a x (G l a) l Hx) as Hp.
  enough (measure_sum m
            (fold_left (fun o k => put k (G o k) o) ks (put a (G l a) l))
          <= measure_sum m (put a (G l a) l)) by lia.
  apply IH; [exact Hnd' |].
  intros k o Hk Ho.
  assert (Hne : a <> k) by (intros ->; contradiction).
  rewrite (assoc_put_other _ _ _ _ Hne) in *.
  apply H; [now right | exact Ho].
Qed.

Lemma fold_put_lt (ks : list string) (l : props) :
  NoDup ks ->
  (forall k o, In k ks -> assoc k o = assoc k l ->
               exists x, assoc k l = Some x /\ m (G o k) <= m x) ->
  (exists k, In k ks
             /\ forall o, assoc k o = assoc k l ->
                          exists x, assoc k l = Some x /\ m (G o k) < m x) ->
  measure_sum m (fold_left (fun o k => put k (G o k) o) ks l)
  < measure_sum m l.
Proof.
  revert l; induction ks as [| a ks IH]; intros l Hnd H [ka [Hka Hstrict]];
    [destruct Hka |].
  cbn [fold_left]. inversion Hnd as [| ? ? Ha Hnd']; subst.
  destruct (H a l (or_introl eq_refl) eq_refl) as [x [Hx Hm]].
  pose proof (put_measure m a x (G l a) l Hx) as Hp.
  assert (Hrest : forall k o, In k ks ->
            assoc k o = assoc k (put a (G l a) l) ->
            exists x, assoc k (put a (G l a) l) = Some x /\ m (G o k) <= m x).
  { intros k o Hk Ho.
    assert (Hne : a <> k) by (intros ->; contradiction).
    rewrite (assoc_put_other _ _ _ _ Hne) in *.
    apply H; [now right | exact Ho]. }
  destruct Hka as [<- | Hka].
  - destruct (Hstrict l eq_refl) as [x' [Hx' Hlt]].
    rewrite Hx in Hx'. injection Hx' as <-.
    pose proof (fold_put_le ks (put a (G l a) l) Hnd' Hrest). lia.
  - enough (measure_sum m
              (fold_left (fun o k => put k (G o k) o) ks (put a (G l a) l))
            < measure_sum m (put a (G l a) l)) by lia.
    apply IH; [exact Hnd' | exact Hrest |].
    exists ka. split; [exact Hka |]. intros o Ho.
    assert (Hne : a <> ka) by (intros ->; contradiction).
    rewrite (assoc_put_other _ _ _ _ Hne) in *.
    now apply Hstrict.
Qed.

End FoldPut.

Lemma object_with_keys (v : jsvalue) (keys : list string) :
  typeof_object v = true -> Object_keys v = Return keys ->
  exists own inh, v = VObj own inh /\ keys = OwnPropertyKeys own.
Proof.
  destruct v; try discriminate. intros _ [= <-]. eauto.
Qed.

Lemma member_own (own inh : props) (k : string) (x : jsvalue) :
  assoc k own = Some x -> member (VObj own inh) k = x.
Proof. intros H. cbn [member]. now apply get_own. Qed.

Lemma key_entry (own : props) (k : string) :
  In k (OwnPropertyKeys own) ->
  exists x, assoc k own = Some x /\ In (k, x) own.
Proof.
  intros H. apply In_OwnPropertyKeys, In_keys_assoc in H as [x Hx].
  exists x. split; [exact Hx | now apply assoc_In].
Qed.

Lemma getAllObjects_SS (obj : jsvalue) (n : nat) :
  getAllObjects obj (S (S n))
  = if negb (typeof_object obj) then Throw non_object_value
    else keys <- Object_keys obj ;;
         lists <- mapM (fun k => getAllObjects (member obj k) (S n)) keys ;;
         Return (List.concat lists).
Proof. reflexivity. Qed.

Lemma mapM_In {A B : Type} (f : A -> result B) (l : list A) (bs : list B) :
  mapM f l = Return bs ->
  (forall a, In a l -> exists b, f a = Return b /\ In b bs)
  /\ (forall b, In b bs -> exists a, In a l /\ f a = Return b).
Proof.
  revert bs; induction l as [| a l IH]; intros bs; cbn [mapM].
  - intros [= <-]. split; [intros a [] | intros b []].
  - destruct (f a) as [b |] eqn:Ha; cbn [bind]; [| discriminate].
    destruct (mapM f l) as [bs' |]; cbn [bind]; [| discriminate].
    intros [= <-]. destruct (IH bs' eq_refl) as [H1 H2]. split.
    + intros a' [<- | Hin]; [exists b; split; [exact Ha | now left] |].
      destruct (H1 a' Hin) as [b' [Hb' Hin']]. exists b'.
      split; [exact Hb' | now right].
    + intros b' [<- | Hin]; [exists a; split; [now left | exact Ha] |].
      destruct (H2 b' Hin) as [a' [Hin' Ha']]. exists a'.
      split; [now right | exact Ha'].
Qed.

Section UpdateSize.
Variable f : jsvalue -> jsvalue.

Lemma update_at_S (n : nat) (own inh : props) :
  update_at (S n) f (VObj own inh)
  = VObj (fold_left
            (fun o k => put k (update_at n f (own_value own k)) o)
            (OwnPropertyKeys own) own)
         inh.
Proof. reflexivity. Qed.

(** What [getAllObjects] tells about a child of an object, one level up. *)
Lemma getAllObjects_child (n : nat) (own inh : props) (objs : list jsvalue)
    (k : string) (x : jsvalue) :
  getAllObjects (VObj own inh) (S n) = Return objs ->
  In k (OwnPropertyKeys own) -> assoc k own = Some x ->
  match n with
  | 0 => In x objs
  | S _ => exists objs', getAllObjects x n = Return objs'
                         /\ forall o, In o objs' -> In o objs
  end.
Proof.
  intros Hobjs Hk Hx. destruct n as [| n'].
  - cbn [getAllObjects typeof_object negb Object_keys bind] in Hobjs.
    injection Hobjs as <-. apply in_map_iff. exists k.
    split; [now apply member_own | exact Hk].
  - rewrite getAllObjects_SS in Hobjs.
    cbn [typeof_object negb Object_keys bind] in Hobjs.
    destruct (mapM _ (OwnPropertyKeys own)) as [lists |] eqn:Hm;
      cbn [bind] in Hobjs; [| discriminate Hobjs].
    injection Hobjs as <-.
    destruct (proj1 (mapM_In _ _ _ Hm) k Hk) as [objs' [Ho Hin]].
    rewrite (member_own _ _ _ _ Hx) in Ho. exists objs'.
    split; [exact Ho |]. intros o Hino. apply in_concat. now exists objs'.
Qed.

Lemma update_at_size_le (lvl : nat) :
  forall v objs,
    getAllObjects v lvl = Return objs ->
    (forall o, In o objs -> size (f o) <= size o) ->
    size (update_at lvl f v) <= size v.
Proof.
  induction lvl as [| n IH]; intros v objs Hobjs Hf.
  - cbn [getAllObjects] in Hobjs.
    destruct (negb (typeof_object v)); [discriminate Hobjs |].
    injection Hobjs as <-. cbn [update_at]. apply Hf. now left.
  - assert (Hv : exists own inh, v = VObj own inh).
    { destruct n; [cbn [getAllObjects] in Hobjs
                  | rewrite getAllObjects_SS in Hobjs];
        destruct (typeof_object v) eqn:Ht; cbn [negb] in Hobjs;
        try discriminate Hobjs;
        (destruct (Object_keys v) as [keys |] eqn:Hk; cbn [bind] in Hobjs;
         [| discriminate Hobjs]);
        destruct (object_with_keys v keys Ht Hk) as (own & inh & -> & _);
        eauto. }
    destruct Hv as (own & inh & ->).
    rewrite update_at_S, !size_VObj. apply le_n_S.
    apply (fold_put_le size
             (fun _ k => update_at n f (own_value own k)));
      [apply NoDup_OwnPropertyKeys |].
    intros k _ Hk _. destruct (key_entry own k Hk) as [x [Hx _]].
    exists x. split; [exact Hx |]. unfold own_value. rewrite Hx.
    pose proof (getAllObjects_child n own inh objs k x Hobjs Hk Hx) as Hc.
    destruct n as [| n'].
    + cbn [update_at]. now apply Hf.
    + destruct Hc as [objs' [Ho Hsub]]. apply (IH x objs' Ho).
      intros o Hin. apply Hf. now apply Hsub.
Qed.

Lemma update_at_size_lt (lvl : nat) :
  forall v objs,
    getAllObjects v lvl = Return objs ->
    (forall o, In o objs -> size (f o) <= size o) ->
    (exists o, In o objs /\ size (f o) < size o) ->
    size (update_at lvl f v) < size v.
Proof.
  induction lvl as [| n IH]; intros v objs Hobjs Hf [o1 [Hin1 Hlt1]].
  - cbn [getAllObjects] in Hobjs.
    destruct (negb (typeof_object v)); [discriminate Hobjs |].
    injection Hobjs as <-. cbn [update_at].
    destruct Hin1 as [<- | []]. exact Hlt1.
  - assert (Hv : exists own inh, v = VObj own inh).
    { destruct n; [cbn [getAllObjects] in Hobjs
                  | rewrite getAllObjects_SS in Hobjs];
        destruct (typeof_object v) eqn:Ht; cbn [negb] in Hobjs;
        try discriminate Hobjs;
        (destruct (Object_keys v) as [keys |] eqn:Hk; cbn [bind] in Hobjs;
         [| discriminate Hobjs]);
        destruct (object_with_keys v keys Ht Hk) as (own & inh & -> & _);
        eauto. }
    destruct Hv as (own & inh & ->).
    rewrite update_at_S, !size_VObj. apply -> Nat.succ_lt_mono.
    assert (Hle : forall k o, In k (OwnPropertyKeys own) ->
              assoc k o = assoc k own ->
              exists x, assoc k own = Some x
                        /\ size (update_at n f (own_value own k)) <= size x).
    { intros k _ Hk _. destruct (key_entry own k Hk) as [x [Hx _]].
      exists x. split; [exact Hx |]. unfold own_value. rewrite Hx.
      pose proof (getAllObjects_child n own inh objs k x Hobjs Hk Hx) as Hc.
      destruct n as [| n'].
      - cbn [update_at]. now apply Hf.
      - destruct Hc as [objs' [Ho Hsub]].
        apply (update_at_size_le (S n') x objs' Ho).
        intros o Hin. apply Hf. now apply Hsub. }
    apply (fold_put_lt size
             (fun _ k => update_at n f (own_value own k)));
      [apply NoDup_OwnPropertyKeys | exact Hle |].
    (* the key under which the object that shrinks is found *)
    assert (Hkey : exists k x, In k (OwnPropertyKeys own)
                     /\ assoc k own = Some x
                     /\ size (update_at n f x) < size x).
    { destruct n as [| n'].
      - cbn [getAllObjects typeof_object negb Object_keys bind] in Hobjs.
        injection Hobjs as <-. apply in_map_iff in Hin1 as [k [Hm Hk]].
        destruct (key_entry own k Hk) as [x [Hx _]].
        rewrite (member_own _ _ _ _ Hx) in Hm. subst o1.
        exists k, x. now repeat split.
      - rewrite getAllObjects_SS in Hobjs.
        cbn [typeof_object negb Object_keys bind] in Hobjs.
        destruct (mapM _ (OwnPropertyKeys own)) as [lists |] eqn:Hm;
          cbn [bind] in Hobjs; [| discriminate Hobjs].
        injection Hobjs as <-.
        apply in_concat in Hin1 as [objs' [Hl Hin']].
        destruct (proj2 (mapM_In _ _ _ Hm) objs' Hl) as [k [Hk Ho]].
        destruct (key_entry own k Hk) as [x [Hx _]].
        rewrite (member_own _ _ _ _ Hx) in Ho.
        exists k, x. repeat split; [exact Hk | exact Hx |].
        apply (IH x objs' Ho).
        + intros o Hin. apply Hf. apply in_concat. now exists objs'.
        + now exists o1. }
    destruct Hkey as (k & x & Hk & Hx & Hlt).
    exists k. split; [exact Hk |]. intros _ _. exists x.
    split; [exact Hx |]. unfold own_value. now rewrite Hx.
Qed.

End UpdateSize.

Lemma height_level (lvl : nat) :
  forall v objs o,
    getAllObjects v lvl = Return objs -> In o objs ->
    height o + lvl <= height v.
Proof.
  induction lvl as [| n IH]; intros v objs o Hobjs Hin.
  - cbn [getAllObjects] in Hobjs.
    destruct (negb (typeof_object v)); [discriminate Hobjs |].
    injection Hobjs as <-. destruct Hin as [<- | []]. lia.
  - assert (Hv : exists own inh, v = VObj own inh).
    { destruct n; [cbn [getAllObjects] in Hobjs
                  | rewrite getAllObjects_SS in Hobjs];
        destruct (typeof_object v) eqn:Ht; cbn [negb] in Hobjs;
        try discriminate Hobjs;
        (destruct (Object_keys v) as [keys |] eqn:Hk; cbn [bind] in Hobjs;
         [| discriminate Hobjs]);
        destruct (object_with_keys v keys Ht Hk) as (own & inh & -> & _);
        eauto. }
    destruct Hv as (own & inh & ->).
    destruct n as [| n'].
    + cbn [getAllObjects typeof_object negb Object_keys bind] in Hobjs.
      injection Hobjs as <-. apply in_map_iff in Hin as [k [Hm Hk]].
      destruct (key_entry own k Hk) as [x [Hx Hentry]].
      rewrite (member_own _ _ _ _ Hx) in Hm. subst o.
      pose proof (height_entry k x own inh Hentry). lia.
    + rewrite getAllObjects_SS in Hobjs.
      cbn [typeof_object negb Object_keys bind] in Hobjs.
      destruct (mapM _ (OwnPropertyKeys own)) as [lists |] eqn:Hm;
        cbn [bind] in Hobjs; [| discriminate Hobjs].
      injection Hobjs as <-.
      apply in_concat in Hin as [objs' [Hl Hin']].
      destruct (proj2 (mapM_In _ _ _ Hm) objs' Hl) as [k [Hk Ho]].
      destruct (key_entry own k Hk) as [x [Hx Hentry]].
      rewrite (member_own _ _ _ _ Hx) in Ho.
      pose proof (IH x objs' o Ho Hin').
      pose proof (height_entry k x own inh Hentry). lia.
Qed.

(** What a round that reads [key0] has found: the first object has a first
    key, whose value is an object. *)
Lemma first_key_found (objects : list jsvalue)
    (keysets : list (list (list string))) (key0 : option string) :
  mapM keyset objects = Return keysets ->
  first_key keysets = Return key0 ->
  exists o0 rest own inh k ks cown cinh,
    objects = o0 :: rest /\ o0 = VObj own inh
    /\ OwnPropertyKeys own = k :: ks
    /\ member o0 k = VObj cown cinh.
Proof.
  intros Hm Hf.
  destruct objects as [| o0 rest]; cbn [mapM] in Hm.
  - injection Hm as <-. discriminate Hf.
  - destruct (keyset o0) as [kss |] eqn:Hk0; cbn [bind] in Hm;
      [| discriminate Hm].
    destruct (mapM keyset rest) as [ksss |]; cbn [bind] in Hm;
      [| discriminate Hm].
    injection Hm as <-. destruct kss as [| ks0 kss']; [discriminate Hf |].
    unfold keyset in Hk0.
    destruct (Object_keys o0) as [keys |] eqn:Hkeys; cbn [bind] in Hk0;
      [| discriminate Hk0].
    destruct keys as [| k ks]; [discriminate Hk0 |].
    cbn [mapM] in Hk0.
    destruct (typeof_object (member o0 k)) eqn:Ht; cbn [negb] in Hk0;
      [| discriminate Hk0].
    destruct (Object_keys (member o0 k)) as [ckeys |] eqn:Hc;
      cbn [bind] in Hk0; [| discriminate Hk0].
    destruct (object_with_keys _ _ Ht Hc) as (cown & cinh & Hchild & _).
    destruct o0 as [| | b | x | s | src | own inh];
      cbn [Object_keys] in Hkeys; try discriminate Hkeys.
    + exfalso. cbn [member] in Hchild.
      destruct (String.get _ s); discriminate Hchild.
    + injection Hkeys as Hkeys.
      exists (VObj own inh), rest, own, inh, k, ks, cown, cinh.
      now repeat split.
Qed.

(** In a round that collapses, every property of every object of the
    level is an object whose only key is [key0]. *)
Lemma all_single_children (objects : list jsvalue)
    (keysets : list (list (list string))) (key0 : option string) :
  mapM keyset objects = Return keysets ->
  all_single key0 keysets = true ->
  forall own inh k,
    In (VObj own inh) objects -> In k (OwnPropertyKeys own) ->
    exists k0 x cown cinh v,
      key0 = Some k0 /\ assoc k own = Some x /\ x = VObj cown cinh
      /\ assoc k0 cown = Some v /\ In (k0, v) cown.
Proof.
  intros Hm Hall own inh k Hin Hk.
  apply mapM_Forall2 in Hm.
  assert (Hkss : exists kss, keyset (VObj own inh) = Return kss
                             /\ In kss keysets).
  { clear Hall. induction Hm as [| o kss objects keysets Ho _ IH];
      [destruct Hin |].
    destruct Hin as [-> | Hin]; [exists kss; split; [exact Ho | now left] |].
    destruct (IH Hin) as [kss' [H1 H2]]. exists kss'.
    split; [exact H1 | now right]. }
  destruct Hkss as [kss [Hkeyset Hkss]].
  unfold all_single in Hall. rewrite forallb_forall in Hall.
  specialize (Hall kss Hkss). rewrite forallb_forall in Hall.
  unfold keyset in Hkeyset. cbn [Object_keys bind] in Hkeyset.
  destruct (proj1 (mapM_In _ _ _ Hkeyset) k Hk) as [ks [Hks Hinks]].
  specialize (Hall ks Hinks).
  destruct (key_entry own k Hk) as [x [Hx _]].
  rewrite (member_own _ _ _ _ Hx) in Hks.
  destruct (typeof_object x) eqn:Ht; cbn [negb] in Hks; [| discriminate Hks].
  destruct (object_with_keys _ _ Ht Hks) as (cown & cinh & -> & ->).
  destruct (OwnPropertyKeys cown) as [| k1 [| k2 ks']] eqn:Ek;
    try discriminate Hall.
  destruct key0 as [k0 |]; [| discriminate Hall].
  apply String.eqb_eq in Hall. subst k1.
  assert (Hk0 : In k0 (OwnPropertyKeys cown)) by (rewrite Ek; now left).
  destruct (key_entry cown k0 Hk0) as [v [Hv Hentry]].
  exists k0, (VObj cown cinh), cown, cinh, v. now repeat split.
Qed.

Lemma collapse_size (key0 : option string) (own inh : props) :
  (forall k, In k (OwnPropertyKeys own) ->
     exists k0 x cown cinh v,
       key0 = Some k0 /\ assoc k own = Some x /\ x = VObj cown cinh
       /\ assoc k0 cown = Some v /\ In (k0, v) cown) ->
  size (collapse key0 (VObj own inh)) <= size (VObj own inh)
  /\ (OwnPropertyKeys own <> [] ->
      size (collapse key0 (VObj own inh)) < size (VObj own inh)).
Proof.
  intros Hchildren. cbn [collapse]. rewrite !size_VObj.
  assert (Hlt : forall k o, In k (OwnPropertyKeys own) ->
            assoc k o = assoc k own ->
            exists x, assoc k own = Some x
                      /\ size (member (member (VObj o inh) k) (key_name key0))
                         < size x).
  { intros k o Hk Ho.
    destruct (Hchildren k Hk) as (k0 & x & cown & cinh & v
                                  & -> & Hx & -> & Hv & Hentry).
    exists (VObj cown cinh). split; [exact Hx |].
    rewrite Hx in Ho. rewrite (member_own _ _ _ _ Ho). cbn [key_name].
    rewrite (member_own _ _ _ _ Hv). now apply size_entry with (k := k0). }
  split.
  - apply le_n_S.
    apply (fold_put_le size
             (fun o k => member (member (VObj o inh) k) (key_name key0)));
      [apply NoDup_OwnPropertyKeys |].
    intros k o Hk Ho. destruct (Hlt k o Hk Ho) as [x [Hx Hs]].
    exists x. split; [exact Hx | lia].
  - intros Hne. apply -> Nat.succ_lt_mono.
    apply (fold_put_lt size
             (fun o k => member (member (VObj o inh) k) (key_name key0)));
      [apply NoDup_OwnPropertyKeys | |].
    + intros k o Hk Ho. destruct (Hlt k o Hk Ho) as [x [Hx Hs]].
      exists x. split; [exact Hx | lia].
    + destruct (OwnPropertyKeys own) as [| k ks] eqn:E; [contradiction |].
      exists k. split; [now left |]. intros o Ho. apply Hlt; [now left | exact Ho].
Qed.

Lemma round_progress (input input' : jsvalue) (lvl lvl' : nat) :
  simplify_round input lvl = Return (input', lvl') ->
  size input' < size input
  \/ (input' = input /\ lvl' = S lvl /\ lvl < height input).
Proof.
  unfold simplify_round.
  destruct (getAllObjects input lvl) as [objects |] eqn:Ho; cbn [bind];
    [| discriminate].
  destruct (mapM keyset objects) as [keysets |] eqn:Hm; cbn [bind];
    [| discriminate].
  destruct (first_key keysets) as [key0 |] eqn:Hf; cbn [bind];
    [| discriminate].
  destruct (first_key_found _ _ _ Hm Hf)
    as (o0 & rest & own & inh & k & ks & cown & cinh & -> & -> & Hk & _).
  destruct (all_single key0 keysets) eqn:Hall; intros [= <- <-].
  - left. apply (update_at_size_lt (collapse key0) lvl input _ Ho).
    + intros o Hin.
      destruct o as [| | b | x | s | src | own' inh'];
        try (cbn [collapse]; lia).
      apply collapse_size. intros k' Hk'.
      now apply (all_single_children _ _ _ Hm Hall own' inh' k' Hin).
    + exists (VObj own inh). split; [now left |].
      apply collapse_size.
      * intros k' Hk'.
        apply (all_single_children _ _ _ Hm Hall own inh k');
          [now left | exact Hk'].
      * rewrite Hk. discriminate.
  - right. repeat split.
    pose proof (height_level lvl input _ (VObj own inh) Ho (or_introl eq_refl))
      as Hh.
    cbn [height] in Hh. lia.
Qed.

Lemma simplify_from_more (rounds : nat) :
  forall input lvl outcome more,
    simplify_from rounds input lvl = Some outcome ->
    simplify_from (rounds + more) input lvl = Some outcome.
Proof.
  induction rounds as [| rounds IH]; intros input lvl outcome more;
    cbn [simplify_from Nat.add]; [discriminate |].
  destruct (simplify_round input lvl) as [[input' lvl'] | e];
    [apply IH | exact (fun H => H)].
Qed.

Lemma simplify_from_ends (bound : nat) :
  forall input lvl,
    size input < bound ->
    exists rounds outcome, simplify_from rounds input lvl = Some outcome.
Proof.
  induction bound as [| bound IHsize]; intros input lvl Hsize; [lia |].
  remember (height input - lvl) as c eqn:Hc. revert lvl Hc.
  induction c as [c IHlevel] using lt_wf_ind. intros lvl Hc.
  destruct (simplify_round input lvl) as [[input' lvl'] | e] eqn:Hr.
  - destruct (round_progress _ _ _ _ Hr) as [Hlt | (-> & -> & Hh)].
    + destruct (IHsize input' lvl') as (rounds & outcome & H); [lia |].
      exists (S rounds), outcome. cbn [simplify_from]. now rewrite Hr.
    + destruct (IHlevel (height input - S lvl)) with (lvl := S lvl)
        as (rounds & outcome & H); [lia | reflexivity |].
      exists (S rounds), outcome. cbn [simplify_from]. now rewrite Hr.
  - exists 1. cbn [simplify_from]. rewrite Hr.
    destruct e as [message |]; [| eauto].
    destruct (message =? "non-object value"); eauto.
Qed.

(** X21.  The loop of [simplify] ends on every tree: after some number of
    rounds [simplify] has returned or raised, and further rounds change
    nothing.  Each round that does not end the loop either makes the tree
    smaller or goes one level down, and the tree has only so many levels. *)
Theorem simplify_terminates (input : jsvalue) :
  exists rounds outcome,
    forall more, simplify (rounds + more) input = Some outcome.
Proof.
  destruct (simplify_from_ends (S (size input)) input 0)
    as (rounds & outcome & H); [lia |].
  exists rounds, outcome. intros more. unfold simplify.
  now apply simplify_from_more.
Qed.

Lemma fold_put_keys (G : props -> string -> jsvalue) (ks : list string)
    (l : props) :
  (forall k, In k ks -> In k (map fst l)) ->
  map fst (fold_left (fun o k => put k (G o k) o) ks l) = map fst l.
Proof.
  revert l; induction ks as [| a ks IH]; intros l H; cbn [fold_left];
    [reflexivity |].
  assert (Ha : map fst (put a (G l a) l) = map fst l).
  { rewrite keys_put_order.
    assert (Hm : mem_string a (map fst l) = true)
      by (apply mem_string_In, H; now left).
    now rewrite Hm. }
  rewrite IH; [exact Ha |].
  intros k Hk. rewrite Ha. apply H. now right.
Qed.

Lemma round_keeps_root_keys (own inh : props) (lvl lvl' : nat)
    (input' : jsvalue) :
  simplify_round (VObj own inh) lvl = Return (input', lvl') ->
  exists own', input' = VObj own' inh /\ map fst own' = map fst own.
Proof.
  unfold simplify_round.
  destruct (getAllObjects (VObj own inh) lvl) as [objects |]; cbn [bind];
    [| discriminate].
  destruct (mapM keyset objects) as [keysets |]; cbn [bind]; [| discriminate].
  destruct (first_key keysets) as [key0 |]; cbn [bind]; [| discriminate].
  destruct (all_single key0 keysets); intros [= <- <-]; [| now exists own].
  destruct lvl as [| n]; cbn [update_at collapse]; eexists;
    (split; [reflexivity |]);
    apply fold_put_keys; intros k; apply In_OwnPropertyKeys.
Qed.

(** X22.  [simplify] never touches the keys of the outermost object: what
    it returns for an object is an object with the same keys in the same
    order and the same prototype; the levels it takes away lie below. *)
Theorem simplify_keeps_root_keys (rounds : nat) (own inh : props)
    (result : jsvalue) :
  simplify rounds (VObj own inh) = Some (Return result) ->
  exists own', result = VObj own' inh /\ map fst own' = map fst own.
Proof.
  unfold simplify. generalize 0 as lvl. revert own.
  induction rounds as [| rounds IH]; intros own lvl; cbn [simplify_from];
    [discriminate |].
  destruct (simplify_round (VObj own inh) lvl) as [[input' lvl'] | e] eqn:Hr.
  - destruct (round_keeps_root_keys _ _ _ _ _ Hr) as (own1 & -> & Hk).
    intros H. destruct (IH own1 lvl' H) as (own' & -> & Hk').
    exists own'. split; [reflexivity | congruence].
  - destruct e as [message |]; [| discriminate].
    destruct (message =? "non-object value"); [| discriminate].
    intros [= <-]. now exists own.
Qed.

(** * Further instances on the sample host *)

Definition empty_object : jsvalue := VObj [] [].

Definition broken_compiler : object :=
  {| own := [ ("locales", empty_object);
              ("runtime", VObj [ ("format", VBool true) ] []);
              ("formatters", empty_object) ];
     inherited := [] |}.

Definition broken_runtime : Runtime :=
  constructor {| strictNumberSign := VUndefined |} broken_compiler
              sample_pluralFuncs.

Definition idle_compiler : object :=
  {| own := [ ("locales", empty_object); ("runtime", empty_object);
              ("formatters", empty_object) ];
     inherited := [] |}.

Definition idle_runtime : Runtime :=
  constructor {| strictNumberSign := VUndefined |} idle_compiler
              sample_pluralFuncs.

Definition by_locale : props :=
  [ ("a", VObj [ ("en", VStr "x") ] []); ("b", VObj [ ("en", VStr "y") ] []) ].









Definition strict_options : Options := {| strictNumberSign := VBool true |}.



Lemma constructor_binds_number_witness :
  fst (run (host := sample_host) (fun lc => lc) (fun i => i)
         [ Op_number (VStr "12") (VStr "count") (VNum zero); Op_toString;
           Op_number (VStr "12") (VStr "count") (VNum zero) ]
         (snd (new_Runtime strict_options sample_compiler sample_pluralFuncs
                           empty_cell)))
  = [ strictNumber (VStr "12") (VStr "count") (VNum zero);
      text <- toString (fun lc => lc) (fun i => i)
                (constructor strict_options sample_compiler sample_pluralFuncs) ;;
      Return (VStr text);
      strictNumber (VStr "12") (VStr "count") (VNum zero) ]
  /\ strictNumber (VStr "12") (VStr "count") (VNum zero)
     = Return (VNum 12%float)
  /\ exists obj,
       rendered_object (fun lc => lc)
         (constructor strict_options sample_compiler sample_pluralFuncs)
       = Return obj
       /\ own_value obj "number"
          = VFun (Function_toString fn_strictNumber).
Proof.
  pose proof (constructor_binds_number (host := sample_host)
                (fun lc => lc) (fun i => i) strict_options sample_compiler
                sample_pluralFuncs
                [ Op_number (VStr "12") (VStr "count") (VNum zero); Op_toString;
                  Op_number (VStr "12") (VStr "count") (VNum zero) ])
    as (_ & _ & _ & _ & _ & _ & Hcalls & Htext).
  cbv zeta in Hcalls, Htext.
  split.
  - inversion Hcalls as [| ? o1 ? l1 H1 Hcalls1]; subst.
    inversion Hcalls1 as [| ? o2 ? l2 H2 Hcalls2]; subst.
    inversion Hcalls2 as [| ? o3 ? l3 H3 Hcalls3]; subst.
    inversion Hcalls3; subst. reflexivity.
  - split; [reflexivity |].
    exact (Htext [ ("en", VBool true) ] []
             [ ("plural", VBool true); ("number", VBool true) ] []
             [ ("date", VFun "function date(v, lc, p) { }") ] []
             eq_refl eq_refl eq_refl (or_intror (or_introl eq_refl))).
Defined.

Lemma strictNumber_stricter_witness :
  is_nan 3%float = false
  /\ strictNumber (VNum 3%float) (VStr "count") (VNum 1%float)
     = defaultNumber (VNum 3%float) (VStr "count") (VNum 1%float).
Proof.
  split; [reflexivity |].
  exact (proj2 (proj2 (strictNumber_stricter (VNum 3%float) (VStr "count")
                         (VNum 1%float)))
               3%float eq_refl eq_refl).
Defined.

Lemma plural_other_is_select_witness :
  (forall n ord : jsvalue, (fun _ _ => VStr "other") n ord = VStr "other")
  /\ plural (VStr "male") (VNum 1%float) (fun _ _ => VStr "other") pronouns
            VUndefined
     = select (VStr "male") pronouns.
Proof.
  split; [reflexivity |].
  exact (plural_other_is_select (VStr "male") (VNum 1%float)
           (fun _ _ => VStr "other") pronouns VUndefined
           (fun _ _ => eq_refl)).
Defined.

Lemma inherited_key_asymmetry_witness :
  hasOwnProperty guests "constructor" = false
  /\ select (VStr "constructor") guests = VStr "you and some others"
  /\ plural (VNum 5%float) (VNum zero) (fun _ _ => VStr "constructor") guests
            VUndefined
     = VFun "function Object() { [native code] }".
Proof.
  split; [reflexivity |].
  pose proof (inherited_key_asymmetry guests "constructor"
                (VFun "function Object() { [native code] }")
                eq_refl eq_refl) as [Hs Hp].
  split; [exact Hs |].
  exact (Hp (VNum 5%float) (VNum zero) (fun _ _ => VStr "constructor")
            VUndefined eq_refl eq_refl).
Defined.

Lemma toString_throws_TypeError_witness :
  rendered_object (fun lc => lc) broken_runtime
  = Return [ ("format", VUndefined) ]
  /\ toString (fun lc => lc) (fun i => i) broken_runtime = Throw TypeError.
Proof.
  split; [reflexivity |].
  exact (proj2 (proj2 (toString_throws_TypeError (fun lc => lc) (fun i => i)
                         broken_runtime))
               [ ("format", VUndefined) ] "format" eq_refl
               (or_introl eq_refl) eq_refl).
Defined.

Lemma toString_well_formed_witness :
  exists text,
    toString (fun lc => lc) (fun i => i) sample_runtime = Return text.
Proof.
  apply (toString_well_formed (fun lc => lc) (fun i => i) sample_runtime
           [ ("en", VBool true) ] []
           [ ("plural", VBool true); ("number", VBool true) ] []
           [ ("date", VFun "function date(v, lc, p) { }") ] []
           eq_refl eq_refl eq_refl).
  - intros lc [<- | []]. eexists; reflexivity.
  - intros fn [<- | [<- | []]]; cbn [In]; tauto.
  - intros i x [[= <- <-] | []]. eexists; reflexivity.
Defined.

Lemma toString_declaration_order_witness :
  exists obj,
    rendered_object (fun lc => lc) sample_runtime = Return obj
    /\ OwnPropertyKeys obj = [ "en"; "plural"; "number"; "fmt" ].
Proof.
  destruct (toString_declaration_order (fun lc => lc) (fun i => i)
              sample_runtime
              [ ("en", VBool true) ] []
              [ ("plural", VBool true); ("number", VBool true) ] []
              [ ("date", VFun "function date(v, lc, p) { }") ] []
              eq_refl eq_refl eq_refl)
    as (obj & Hobj & Hkeys & _).
  - intros lc [<- | []]. reflexivity.
  - intros fn [<- | [<- | []]]; reflexivity.
  - exists obj. split; [exact Hobj | exact Hkeys].
Defined.

Lemma toString_empty_iff_witness :
  toString (fun lc => lc) (fun i => i) idle_runtime = Return "".
Proof.
  exact (proj2 (toString_empty_iff (fun lc => lc) (fun i => i) idle_runtime
                  [] [] [] [] [] [] eq_refl eq_refl eq_refl)
               (conj eq_refl (conj eq_refl eq_refl))).
Defined.

Lemma strip_function_name_anonymous_witness :
  string_forallb is_word "en" = true
  /\ strip_function_name "function en(n, ord) { }" = "function (n, ord) { }".
Proof.
  split; [reflexivity |].
  exact (proj1 (strip_function_name_anonymous "function en(n, ord) { }")
               "en" "(n, ord) { }" eq_refl eq_refl eq_refl).
Defined.

Lemma function_text_indentation_witness :
  exec_indent ("function () {" ++ nl ++ "    return 1;" ++ nl ++ "  }")
  = Some "  "
  /\ string_forallb is_space_or_tab "  " = true.
Proof.
  split; [reflexivity |].
  exact (proj1 (function_text_indentation
                  ("function () {" ++ nl ++ "    return 1;" ++ nl ++ "  }"))
               "  " eq_refl).
Defined.

Lemma unindent_indent_lines_witness :
  string_forallb is_space_or_tab "  " = true
  /\ unindent "  " (indent_lines "  " ("a: 1," ++ nl ++ "b: 2"))
     = "a: 1," ++ nl ++ "b: 2".
Proof.
  split; [reflexivity |].
  exact (unindent_indent_lines "  " ("a: 1," ++ nl ++ "b: 2") eq_refl).
Defined.

Lemma getOptions_extensions_normal_witness :
  getOptions_extensions (ManyStrings [ " json"; "a.b.c" ])
  = Return [ ".json"; ".b.c" ]
  /\ getOptions_extensions (ManyStrings [ ".json"; ".b.c" ])
     = Return [ ".json"; ".b.c" ].
Proof.
  split; [reflexivity |].
  exact (proj2 (proj2 (getOptions_extensions_normal
                         (ManyStrings [ " json"; "a.b.c" ])
                         [ ".json"; ".b.c" ] eq_refl))).
Defined.

Lemma getOptions_locale_parts_witness :
  getOptions_locale (OneString "en, fr") = Some [ "en"; "fr" ]
  /\ Forall (fun part => no_separator part = true) [ "en"; "fr" ].
Proof.
  split; [reflexivity |].
  exact (proj1 (proj2 (getOptions_locale_parts (OneString "en, fr")
                         [ "en"; "fr" ] eq_refl))).
Defined.

Lemma getOptions_locale_array_witness :
  getOptions_locale (ManyStrings [ "en"; "fr-CA" ]) = Some [ "en"; "fr-CA" ].
Proof.
  apply getOptions_locale_array; [discriminate |].
  repeat constructor; discriminate.
Defined.

Lemma simplify_keeps_flat_witness :
  typeof_object (member (VObj [ ("greeting", VStr "hello") ] []) "greeting")
  = false
  /\ simplify 1 (VObj [ ("greeting", VStr "hello") ] [])
     = Some (Return (VObj [ ("greeting", VStr "hello") ] [])).
Proof.
  split; [reflexivity |].
  apply (simplify_keeps_flat 0). right.
  exists [ ("greeting", VStr "hello") ], [], "greeting", [].
  repeat split.
Defined.

Lemma simplify_empty_throws_witness :
  simplify 1 empty_object = Some (Throw TypeError).
Proof.
  apply (simplify_empty_throws 0). right. exists [], []. now split.
Defined.

Lemma simplify_collapses_level_witness :
  simplify 2 (VObj by_locale [])
  = Some (Return (VObj [ ("a", VStr "x"); ("b", VStr "y") ] [])).
Proof.
  apply (simplify_collapses_level 0 by_locale [] "en").
  - discriminate.
  - repeat constructor; cbn [In]; intuition discriminate.
  - intros k x [[= <- <-] | [[= <- <-] | []]]; eexists _, _; split; reflexivity.
Defined.

Lemma simplify_throws_TypeError_witness :
  simplify 1 empty_object = Some (Throw TypeError) /\ TypeError = TypeError.
Proof.
  split; [reflexivity |].
  exact (simplify_throws_TypeError 1 empty_object TypeError eq_refl).
Defined.

Lemma getAllObjects_next_level_witness :
  exists objects lists,
    getAllObjects (VObj by_locale []) 1 = Return objects
    /\ mapM children objects = Return lists
    /\ [ VStr "x"; VStr "y" ] = List.concat lists.
Proof.
  exact (getAllObjects_next_level 1 (VObj by_locale [])
           [ VStr "x"; VStr "y" ] eq_refl).
Defined.

Lemma simplify_keeps_root_keys_witness :
  exists own',
    VObj [ ("a", VStr "x"); ("b", VStr "y") ] [] = VObj own' []
    /\ map fst own' = [ "a"; "b" ].
Proof.
  exact (simplify_keeps_root_keys 2 by_locale []
           (VObj [ ("a", VStr "x"); ("b", VStr "y") ] []) eq_refl).
Defined.
